(** * qq.Scaler: a shallow embedding of [client/js/scaling/scaler.js]

    The scaler turns one reference image into an ordered list of file
    records, one per configured size, each backed by a lazily evaluated
    producer of the scaled blob.  This development embeds the functions of
    [scaler.js] as Rocq functions and proves, or refutes, the properties
    the specification states about them.

    Conventions of the embedding:
    - a JavaScript string is a [string], a sequence of code units; a value
      that is either a string or [undefined] is an [option string];
    - a "binary string" (the result of [atob] or [decodeURI]) is a
      [list N] of code units, because [decodeURI] can yield code units
      above 255;
    - a thrown exception is [None] in an [option] result;
    - collaborators that live outside [scaler.js] (feature flags, the
      previewability check, the identifier allocator, the rendering engine,
      the file reader and the EXIF restorer) are fields of records that the
      functions take as arguments. *)

From Stdlib Require Import ZArith NArith List String Ascii Bool Lia.
From Stdlib Require Import Sorted Permutation QArith.
Import ListNotations.
Open Scope string_scope.
Open Scope Z_scope.

(** ** JavaScript built-ins used by the scaler *)

Module JS.

(** A string-or-undefined value in boolean position: [undefined] and the
    empty string are falsy. *)
Definition truthy (v : option string) : bool :=
  match v with
  | None => false
  | Some s => negb (s =? "")%string
  end.

(** [v || d] on string-or-undefined operands. *)
Definition or_else (v : option string) (d : string) : string :=
  match v with
  | Some s => if (s =? "")%string then d else s
  | None => d
  end.

(** [ToString] on a string-or-undefined value, as string concatenation
    applies it. *)
Definition to_string (v : option string) : string :=
  match v with
  | Some s => s
  | None => "undefined"
  end.

(** Strict equality [a === b] on string-or-undefined values. *)
Definition strict_eq (a b : option string) : bool :=
  match a, b with
  | Some x, Some y => (x =? y)%string
  | None, None => true
  | _, _ => false
  end.

(** [s.split(sep)] for a one-character separator: never empty. *)
Fixpoint split (sep : ascii) (s : string) : list string :=
  match s with
  | EmptyString => [EmptyString]
  | String c r =>
      if Ascii.eqb c sep then EmptyString :: split sep r
      else match split sep r with
           | h :: t => String c h :: t
           | [] => [String c EmptyString]
           end
  end.

(** [arr[i]]: [undefined] past the end. *)
Definition index {A} (l : list A) (i : nat) : option A := nth_error l i.

(** [s.lastIndexOf(c)] for a one-character needle: -1 when absent. *)
Fixpoint lastIndexOf (c : ascii) (s : string) : Z :=
  match s with
  | EmptyString => -1
  | String x r =>
      let i := lastIndexOf c r in
      if 0 <=? i then i + 1
      else if Ascii.eqb x c then 0 else -1
  end.

(** [s.substr(start, len)] for non-negative arguments. *)
Definition substr (s : string) (start len : Z) : string :=
  String.substring (Z.to_nat start) (Z.to_nat len) s.

(** [hay.indexOf(needle) >= 0]. *)
Fixpoint includes (needle hay : string) : bool :=
  String.prefix needle hay ||
  match hay with
  | EmptyString => false
  | String _ r => includes needle r
  end.

(** [Array.prototype.sort(cmp)].  The language leaves the algorithm to
    the engine; this is a stable insertion sort driven by the sign of the
    comparator, as engines use for short arrays. *)
Section Sort.
Context {A : Type} (cmp : A -> A -> Z).

Fixpoint insert (x : A) (l : list A) : list A :=
  match l with
  | [] => [x]
  | y :: r => if cmp x y <=? 0 then x :: y :: r else y :: insert x r
  end.

Definition sort (l : list A) : list A := fold_right insert [] l.
End Sort.

(** *** [atob]: the forgiving base64 decoder of the HTML standard *)

Open Scope N_scope.

Definition code (c : ascii) : N := N_of_ascii c.

(** TAB, LF, FF, CR and SPACE. *)
Definition is_ascii_whitespace (c : ascii) : bool :=
  let n := code c in
  (n =? 9) || (n =? 10) || (n =? 12) || (n =? 13) || (n =? 32).

(** The value of a character of the base64 alphabet. *)
Definition sextet (c : ascii) : option N :=
  let n := code c in
  if (65 <=? n) && (n <=? 90) then Some (n - 65)
  else if (97 <=? n) && (n <=? 122) then Some (n - 71)
  else if (48 <=? n) && (n <=? 57) then Some (n + 4)
  else if n =? 43 then Some 62
  else if n =? 47 then Some 63
  else None.

(** When the length is a multiple of four, one or two trailing "=" are
    dropped. *)
Definition strip_padding (l : list ascii) : list ascii :=
  if (Nat.modulo (List.length l) 4 =? 0)%nat then
    match rev l with
    | c1 :: c2 :: r =>
        if Ascii.eqb c1 "=" then
          if Ascii.eqb c2 "=" then rev r else rev (c2 :: r)
        else l
    | [c1] => if Ascii.eqb c1 "=" then [] else l
    | [] => l
    end
  else l.

(** Every character must belong to the alphabet. *)
Fixpoint sextets (l : list ascii) : option (list N) :=
  match l with
  | [] => Some []
  | c :: r =>
      match sextet c, sextets r with
      | Some v, Some vs => Some (v :: vs)
      | _, _ => None
      end
  end.

(** Four sextets make three bytes; two or three left-over sextets make one
    or two bytes, the surplus bits being discarded. *)
Fixpoint bytes_of_sextets (l : list N) : list N :=
  match l with
  | a :: b :: c :: d :: r =>
      let n := ((a * 64 + b) * 64 + c) * 64 + d in
      n / 65536 :: (n / 256) mod 256 :: n mod 256 :: bytes_of_sextets r
  | [a; b; c] =>
      let n := ((a * 64 + b) * 64 + c) / 4 in
      [n / 256; n mod 256]
  | [a; b] => [(a * 64 + b) / 16]
  | _ => []
  end.

(** [atob(data)]: [None] stands for the [InvalidCharacterError]. *)
Definition atob (data : string) : option (list N) :=
  let l := filter (fun c => negb (is_ascii_whitespace c)) (list_ascii_of_string data) in
  let l := strip_padding l in
  if (Nat.modulo (List.length l) 4 =? 1)%nat then None
  else option_map bytes_of_sextets (sextets l).

(** *** [decodeURI]: the [Decode] operation of ECMAScript with the reserved
    set ";/?:@&=+$,#" *)

Definition hexval (c : ascii) : option N :=
  let n := code c in
  if (48 <=? n) && (n <=? 57) then Some (n - 48)
  else if (65 <=? n) && (n <=? 70) then Some (n - 55)
  else if (97 <=? n) && (n <=? 102) then Some (n - 87)
  else None.

(** The input cut into single characters and "%XY" escapes; a "%" that
    is not followed by two hexadecimal digits raises [URIError]. *)
Inductive UriToken :=
| Literal (c : ascii)
| Escape (x y : ascii) (B : N).

Fixpoint scan (l : list ascii) : option (list UriToken) :=
  match l with
  | [] => Some []
  | c :: r =>
      if Ascii.eqb c "%" then
        match r with
        | x :: y :: r' =>
            match hexval x, hexval y, scan r' with
            | Some a, Some b, Some ts => Some (Escape x y (16 * a + b) :: ts)
            | _, _, _ => None
            end
        | _ => None
        end
      else option_map (cons (Literal c)) (scan r)
  end.

(** uriReserved plus "#". *)
Definition reservedSet : list N := [59; 47; 63; 58; 64; 38; 61; 43; 36; 44; 35].

Definition is_reserved (B : N) : bool := existsb (N.eqb B) reservedSet.

(** A continuation octet has the form 10xxxxxx. *)
Definition is_continuation (B : N) : bool := (128 <=? B) && (B <? 192).

(** The code point must need the number of octets used, must not be a
    surrogate and must not exceed 0x10FFFF. *)
Definition valid_code_point (least V : N) : bool :=
  (least <=? V) && (V <=? 1114111) && negb ((55296 <=? V) && (V <=? 57343)).

(** The code units of a code point: itself, or a surrogate pair. *)
Definition code_units (V : N) : list N :=
  if V <? 65536 then [V]
  else [(V - 65536) / 1024 + 55296; (V - 65536) mod 1024 + 56320].

Fixpoint decode (ts : list UriToken) : option (list N) :=
  match ts with
  | [] => Some []
  | Literal c :: r => option_map (cons (code c)) (decode r)
  | Escape x y B :: r =>
      if B <? 128 then
        if is_reserved B
        then option_map (fun s => 37 :: code x :: code y :: s) (decode r)
        else option_map (cons B) (decode r)
      else if (192 <=? B) && (B <? 224) then
        match r with
        | Escape _ _ B1 :: r1 =>
            let V := (B - 192) * 64 + (B1 - 128) in
            if is_continuation B1 && valid_code_point 128 V
            then option_map (app (code_units V)) (decode r1)
            else None
        | _ => None
        end
      else if (224 <=? B) && (B <? 240) then
        match r with
        | Escape _ _ B1 :: Escape _ _ B2 :: r2 =>
            let V := ((B - 224) * 64 + (B1 - 128)) * 64 + (B2 - 128) in
            if is_continuation B1 && is_continuation B2 && valid_code_point 2048 V
            then option_map (app (code_units V)) (decode r2)
            else None
        | _ => None
        end
      else if (240 <=? B) && (B <? 248) then
        match r with
        | Escape _ _ B1 :: Escape _ _ B2 :: Escape _ _ B3 :: r3 =>
            let V := (((B - 240) * 64 + (B1 - 128)) * 64 + (B2 - 128)) * 64 + (B3 - 128) in
            if is_continuation B1 && is_continuation B2 && is_continuation B3
               && valid_code_point 65536 V
            then option_map (app (code_units V)) (decode r3)
            else None
        | _ => None
        end
      else None
  end.

(** [decodeURI(s)]: [None] stands for the [URIError]. *)
Definition decodeURI (s : string) : option (list N) :=
  match scan (list_ascii_of_string s) with
  | Some ts => decode ts
  | None => None
  end.

(** *** The [type] of a [Blob], as the File API stores it *)

Definition is_printable (c : ascii) : bool :=
  (32 <=? code c) && (code c <=? 126).

Definition to_ascii_lowercase (c : ascii) : ascii :=
  if (65 <=? code c) && (code c <=? 90) then ascii_of_N (code c + 32) else c.

Fixpoint all_printable (s : string) : bool :=
  match s with
  | EmptyString => true
  | String c r => is_printable c && all_printable r
  end.

Fixpoint ascii_lowercase (s : string) : string :=
  match s with
  | EmptyString => EmptyString
  | String c r => String (to_ascii_lowercase c) (ascii_lowercase r)
  end.

(** The [type] attribute of a blob made with the type [t]: the empty
    string when [t] has a character outside U+0020..U+007E, otherwise [t]
    in ASCII lower case. *)
Definition blobType (t : string) : string :=
  if all_printable t then ascii_lowercase t else EmptyString.

Close Scope N_scope.

End JS.

(** ** Data model *)

(** A [Blob] or [File]: its [type] attribute, its [name] ([undefined] on a
    plain blob) and its bytes. *)
Record Blob := mkBlob {
  blob_type : string;
  blob_name : option string;
  blob_bytes : list N
}.

(** One entry of [spec.sizes]. *)
Record SizeRecord := mkSize {
  maxSize : Z;
  name : string;
  type : option string
}.

(** The [spec] argument of the [qq.Scaler] constructor. *)
Record ScalerSpec := mkSpec {
  sendOriginal : bool;
  orient : bool;
  defaultType : option string;
  defaultQuality : Z;
  failureText : string;
  includeExif : bool;
  sizes : list SizeRecord
}.

(** What the scaler reads from its surroundings: [qq.supportedFeatures],
    the keys of [qq.Identify.prototype.PREVIEWABLE_MIME_TYPES], the answer
    of [qq.Identify#isPreviewableSync] and the stream of identifiers that
    [qq.getUniqueId] hands out. *)
Record Platform := mkPlatform {
  imagePreviews : bool;
  tiffPreviews : bool;
  PREVIEWABLE_MIME_TYPES : list string;
  isPreviewableSync : Blob -> bool;
  uniqueId : nat -> string
}.

(** ** qq utilities the scaler calls *)

Module qq.

(** [qq.indexOf(arr, s) >= 0]. *)
Definition indexOf_found (arr : list string) (s : string) : bool :=
  existsb (fun k => (k =? s)%string) arr.

(** Modelled from the spec: [qq.getExtension] is defined in the utility
    module, which is not part of the sources at hand; it yields the
    original extension, the text after the last ".", and [undefined] when
    the name has no ".". *)
Definition getExtension (filename : string) : option string :=
  let extIdx := JS.lastIndexOf "." filename + 1 in
  if 0 <? extIdx
  then Some (JS.substr filename extIdx (Z.of_nat (String.length filename) - extIdx))
  else None.

(** [qq.extend([], arr)]: a fresh array with the same elements. *)
Definition extend_array {A} (arr : list A) : list A := arr.

End qq.

(** ** The scaler's helper methods *)

Section Negotiation.
Variable P : Platform.

(** [_determineOutputType({requestedType, defaultType, refType})]. *)
Definition _determineOutputType
    (requestedType defaultType : option string) (referenceType : option string)
  : option string :=
  if negb (JS.truthy defaultType) && negb (JS.truthy requestedType) then
    if negb (JS.strict_eq referenceType (Some "image/jpeg"))
    then Some "image/png"
    else referenceType
  else if negb (JS.truthy requestedType) then defaultType
  else if qq.indexOf_found (PREVIEWABLE_MIME_TYPES P) (JS.to_string requestedType) then
    if JS.strict_eq requestedType (Some "image/tiff")
    then (if tiffPreviews P then requestedType else defaultType)
    else requestedType
  else defaultType.
End Negotiation.

(** [_getName(originalName, {name, type, refType})]. *)
Definition _getName (originalName : string)
    (label : string) (type refType : option string) : string :=
  let startOfExt := JS.lastIndexOf "." originalName in
  let nameAppendage := " (" ++ label ++ ")" in
  let versionType := JS.or_else type "image/png" in
  let referenceType := refType in
  let scaledExt := qq.getExtension originalName in
  if 0 <=? startOfExt then
    let scaledName := JS.substr originalName 0 startOfExt in
    let scaledExt :=
      if negb (JS.strict_eq referenceType (Some versionType))
      then JS.index (JS.split "/" versionType) 1
      else scaledExt in
    scaledName ++ nameAppendage ++ "." ++ JS.to_string scaledExt
  else originalName ++ nameAppendage.

(** The comparator handed to [sort] in [_getSortedSizes]. *)
Definition compareSizes (a b : SizeRecord) : Z :=
  if maxSize a >? maxSize b then 1
  else if maxSize a <? maxSize b then -1
  else 0.

(** [_getSortedSizes(sizes)]: smallest first, on a copy. *)
Definition _getSortedSizes (sizes : list SizeRecord) : list SizeRecord :=
  JS.sort compareSizes (qq.extend_array sizes).

(** ** The binary codec *)

(** A nameless blob that holds [data] and whose [type] attribute reads
    [tag]. *)
Definition taggedBlob (data : list N) (tag : string) : Blob :=
  {| blob_type := tag; blob_name := None; blob_bytes := data |}.

(** [_createBlob(data, mime)]: both branches, the legacy builder and the
    [Blob] constructor, yield a blob holding [data]; its [type] attribute
    is [mime] as the File API stores it, in lower case, and empty when
    [mime] has a character outside printable ASCII. *)
Definition _createBlob (data : list N) (mime : string) : Blob :=
  {| blob_type := JS.blobType mime; blob_name := None; blob_bytes := data |}.

(** [intArray[idx] = char.charCodeAt(0)] for every character: a
    [Uint8Array] element keeps the low eight bits. *)
Definition toUint8Array (byteString : list N) : list N :=
  map (fun c => (c mod 256)%N) byteString.

(** [_dataUriToBlob(dataUri)].  [None] stands for an exception: from
    [atob], from [decodeURI], or from calling [split] on [undefined] when
    the header has no ":". *)
Definition _dataUriToBlob (dataUri : string) : option Blob :=
  let header := hd EmptyString (JS.split "," dataUri) in
  let payload := JS.to_string (JS.index (JS.split "," dataUri) 1) in
  match (if JS.includes "base64" header
         then JS.atob payload
         else JS.decodeURI payload) with
  | None => None
  | Some byteString =>
      match JS.index (JS.split ":" header) 1 with
      | None => None
      | Some afterColon =>
          let mimeString := hd EmptyString (JS.split ";" afterColon) in
          Some (_createBlob (toUint8Array byteString) mimeString)
      end
  end.

(** ** The derivative generator *)

(** The [spec] object bound to [_generateScaledImage] for one size. *)
Record GenSpec := mkGen {
  gen_maxSize : Z;
  gen_orient : bool;
  gen_type : option string;
  gen_quality : Q;
  gen_failedText : string;
  gen_includeExif : bool
}.

(** The canvas after [imageGenerator.generate] has drawn on it: the source
    it drew and the options it was given. *)
Record Canvas := mkCanvas {
  drawn_source : Blob;
  drawn_maxSize : Z;
  drawn_orient : bool
}.

(** How the collaborators behave during the run of a producer:
    - [generate]: whether the promise of [imageGenerator.generate] succeeds;
    - [toDataURL]: what [canvas.toDataURL(type, quality)] returns;
    - [readAsDataURL]: the reader's [result] when [onload] fires, [None]
      when [onerror] fires;
    - [restore]: what [ExifRestorer.restore] returns, [None] when it
      throws. *)
Record Collaborators := mkCollab {
  generate : Blob -> Z -> bool -> bool;
  toDataURL : Canvas -> option string -> Q -> string;
  readAsDataURL : Blob -> option string;
  restore : string -> string -> option string
}.

(** A [qq.Promise] once the run has come to rest. *)
Inductive Promise (A : Type) :=
| Pending
| Success (a : A)
| Failure (reason : option string).
Arguments Pending {A}.
Arguments Success {A} a.
Arguments Failure {A} reason.

(** A call [log(message, level)]; [level] is [undefined] for plain
    messages. *)
Definition LogEntry : Type := string * option string.

(** A computation that logs: its result and the messages in order. *)
Definition Logged (A : Type) : Type := A * list LogEntry.

Definition ret {A} (a : A) : Logged A := (a, []).

Definition bind {A B} (m : Logged A) (k : A -> Logged B) : Logged B :=
  let (a, l1) := m in
  let (b, l2) := k a in
  (b, (l1 ++ l2)%list).

Definition log (message : string) (level : option string) : Logged unit :=
  (tt, [(message, level)]).

Notation "x <- m ;; k" := (bind m (fun x => k))
  (at level 61, m at next level, right associativity).
Notation "m ;;; k" := (bind m (fun _ => k))
  (at level 61, right associativity).

Section Generator.
Variable W : Collaborators.

(** [_insertExifHeader(originalImage, scaledImageDataUri, log)]: the state
    of [insertionEffort].  When [restore] throws inside [reader.onload]
    nothing settles the promise. *)
Definition _insertExifHeader (originalImage : Blob) (scaledImageDataUri : string)
  : Logged (Promise string) :=
  match readAsDataURL W originalImage with
  | Some originalImageDataUri =>
      match restore W originalImageDataUri scaledImageDataUri with
      | Some merged => ret (Success merged)
      | None => ret Pending
      end
  | None =>
      log ("Problem reading " ++ JS.to_string (blob_name originalImage)
           ++ " during attempt to transfer EXIF data to scaled version.")
          (Some "error") ;;;
      ret (Failure None)
  end.

(** The local function [signalSuccess]: when [_dataUriToBlob] throws,
    [scalingEffort] is left unsettled. *)
Definition signalSuccess (sourceFile : Blob) (scaledImageDataUri : string)
  : Logged (Promise Blob) :=
  log ("Success generating scaled version for " ++ JS.to_string (blob_name sourceFile))
      None ;;;
  match _dataUriToBlob scaledImageDataUri with
  | Some blob => ret (Success blob)
  | None => ret Pending
  end.

(** [_generateScaledImage(spec, sourceFile)]: the state of [scalingEffort]
    and the log once every callback has run. *)
Definition _generateScaledImage (spec : GenSpec) (sourceFile : Blob)
  : Logged (Promise Blob) :=
  let includeExif :=
    gen_includeExif spec
    && (blob_type sourceFile =? "image/jpeg")%string
    && JS.strict_eq (gen_type spec) (Some "image/jpeg") in
  log ("Attempting to generate scaled version for " ++ JS.to_string (blob_name sourceFile))
      None ;;;
  if generate W sourceFile (gen_maxSize spec) (gen_orient spec) then
    let canvas := {| drawn_source := sourceFile;
                     drawn_maxSize := gen_maxSize spec;
                     drawn_orient := gen_orient spec |} in
    let scaledImageDataUri := toDataURL W canvas (gen_type spec) (gen_quality spec) in
    if includeExif then
      insertion <- _insertExifHeader sourceFile scaledImageDataUri ;;
      match insertion with
      | Success scaledImageDataUriWithExif =>
          signalSuccess sourceFile scaledImageDataUriWithExif
      | Failure _ =>
          log "Problem inserting EXIF header into scaled image.  Using scaled image w/out EXIF data."
              (Some "error") ;;;
          signalSuccess sourceFile scaledImageDataUri
      | Pending => ret Pending
      end
    else signalSuccess sourceFile scaledImageDataUri
  else
    log ("Failed attempt to generate scaled version for " ++ JS.to_string (blob_name sourceFile))
        (Some "error") ;;;
    ret (Failure (Some (gen_failedText spec))).
End Generator.

(** ** The orchestrator *)

(** The [blob] of a file record: a [qq.BlobProxy] around the reference blob
    and the bound generator, or the reference blob itself. *)
Inductive RecordBlob :=
| BlobProxy (referenceBlob : Blob) (gen : GenSpec)
| Original (b : Blob).

Record FileRecord := mkRecord {
  uuid : string;
  record_name : string;
  blob : RecordBlob
}.

(** [BlobProxy#create]: run the bound generator on the reference blob. *)
Definition create (W : Collaborators) (b : RecordBlob) : Logged (Promise Blob) :=
  match b with
  | BlobProxy referenceBlob gen => _generateScaledImage W gen referenceBlob
  | Original o => ret (Success o)
  end.

(** The third argument of [getFileRecords]: a blob, or an object whose
    [blob] property holds one. *)
Inductive BlobOrBlobData :=
| IsBlob (b : Blob)
| IsBlobData (b : Blob).

(** The variables the constructor [qq.Scaler(spec, log)] closes over. *)
Record Scaler := mkScaler {
  includeReference : bool;
  sc_orient : bool;
  sc_defaultType : option string;
  sc_defaultQuality : Q;
  failedToScaleText : string;
  sc_includeExif : bool;
  sc_sizes : list SizeRecord;
  enabled : bool
}.

Definition new_Scaler (P : Platform) (spec : ScalerSpec) : Scaler :=
  let sizes := _getSortedSizes (sizes spec) in
  {| includeReference := sendOriginal spec;
     sc_orient := orient spec;
     sc_defaultType := defaultType spec;
     sc_defaultQuality := (inject_Z (defaultQuality spec) / inject_Z 100)%Q;
     failedToScaleText := failureText spec;
     sc_includeExif := includeExif spec;
     sc_sizes := sizes;
     enabled := imagePreviews P && (0 <? Z.of_nat (List.length sizes)) |}.

(** [originalBlobOrBlobData.blob ? originalBlobOrBlobData.blob : originalBlobOrBlobData]. *)
Definition originalBlobOf (originalBlobOrBlobData : BlobOrBlobData) : Blob :=
  match originalBlobOrBlobData with
  | IsBlobData b => b
  | IsBlob b => b
  end.

(** The record pushed last, for the original file. *)
Definition referenceRecord (originalFileUuid originalFileName : string)
    (originalBlob : Blob) : FileRecord :=
  {| uuid := originalFileUuid;
     record_name := originalFileName;
     blob := Original originalBlob |}.

Section Orchestrator.
Variable P : Platform.
Variable self : Scaler.

(** The record built in the [qq.each] callback for one size; [ids] is the
    number of identifiers already handed out. *)
Definition scaledRecord (originalFileName : string) (originalBlob : Blob)
    (ids : nat) (sizeRecord : SizeRecord) : FileRecord :=
  let outputType :=
    _determineOutputType P (type sizeRecord) (sc_defaultType self)
                         (Some (blob_type originalBlob)) in
  {| uuid := uniqueId P ids;
     record_name := _getName originalFileName (name sizeRecord) outputType
                             (Some (blob_type originalBlob));
     blob := BlobProxy originalBlob
               {| gen_maxSize := maxSize sizeRecord;
                  gen_orient := sc_orient self;
                  gen_type := outputType;
                  gen_quality := sc_defaultQuality self;
                  gen_failedText := failedToScaleText self;
                  gen_includeExif := sc_includeExif self |} |}.

(** The [qq.each] callback: one record pushed, one identifier drawn.  The
    state is the array built so far and the allocator's counter. *)
Definition pushScaledRecord (originalFileName : string) (originalBlob : Blob)
    (st : list FileRecord * nat) (sizeRecord : SizeRecord) : list FileRecord * nat :=
  let (records, ids) := st in
  ((records ++ [scaledRecord originalFileName originalBlob ids sizeRecord])%list,
   S ids).

(** [getFileRecords(originalFileUuid, originalFileName, originalBlobOrBlobData)],
    with the identifier allocator's state passed in and out. *)
Definition getFileRecords (ids : nat) (originalFileUuid originalFileName : string)
    (originalBlobOrBlobData : BlobOrBlobData) : list FileRecord * nat :=
  let originalBlob := originalBlobOf originalBlobOrBlobData in
  let (records, ids') :=
    if isPreviewableSync P originalBlob
    then fold_left (pushScaledRecord originalFileName originalBlob)
                   (sc_sizes self) ([], ids)
    else ([], ids) in
  let records :=
    if includeReference self
    then (records ++ [referenceRecord originalFileUuid originalFileName originalBlob])%list
    else records in
  (records, ids').

(** The records of a run of sizes, the first one drawing identifier
    number [ids]. *)
Fixpoint scaledRecords (originalFileName : string) (originalBlob : Blob)
    (ids : nat) (l : list SizeRecord) : list FileRecord :=
  match l with
  | [] => []
  | sizeRecord :: r =>
      scaledRecord originalFileName originalBlob ids sizeRecord
        :: scaledRecords originalFileName originalBlob (S ids) r
  end.
End Orchestrator.

(** The [maxSize] a record's producer scales to; none for the original. *)
Definition variantMaxSize (r : FileRecord) : option Z :=
  match blob r with
  | BlobProxy _ gen => Some (gen_maxSize gen)
  | Original _ => None
  end.

(** The type negotiated for a record's producer; none for the original. *)
Definition variantType (r : FileRecord) : option (option string) :=
  match blob r with
  | BlobProxy _ gen => Some (gen_type gen)
  | Original _ => None
  end.

(** The number of size-derived records [getFileRecords] builds for a
    reference: one per configured size when it is previewable, none
    otherwise. *)
Definition variantCount (P : Platform) (spec : ScalerSpec) (src : BlobOrBlobData) : nat :=
  if isPreviewableSync P (originalBlobOf src) then List.length (sizes spec) else 0%nat.

(** The identifiers of the size-derived records of a list, in order. *)
Definition variantUuids (records : list FileRecord) : list string :=
  map uuid (filter (fun r => match blob r with
                             | BlobProxy _ _ => true
                             | Original _ => false
                             end) records).

(** The Data-URI the generator reads off the canvas after a successful
    rendering. *)
Definition renderedDataUri (W : Collaborators) (spec : GenSpec) (sourceFile : Blob)
  : string :=
  toDataURL W {| drawn_source := sourceFile;
                 drawn_maxSize := gen_maxSize spec;
                 drawn_orient := gen_orient spec |}
            (gen_type spec) (gen_quality spec).

(** ** The messages the generator logs *)

Definition attemptEntry (sourceFile : Blob) : LogEntry :=
  ("Attempting to generate scaled version for " ++ JS.to_string (blob_name sourceFile),
   None).

Definition renderFailedEntry (sourceFile : Blob) : LogEntry :=
  ("Failed attempt to generate scaled version for " ++ JS.to_string (blob_name sourceFile),
   Some "error").

Definition readFailedEntry (sourceFile : Blob) : LogEntry :=
  ("Problem reading " ++ JS.to_string (blob_name sourceFile)
   ++ " during attempt to transfer EXIF data to scaled version.",
   Some "error").

Definition insertFailedEntry : LogEntry :=
  ("Problem inserting EXIF header into scaled image.  Using scaled image w/out EXIF data.",
   Some "error").

Definition successEntry (sourceFile : Blob) : LogEntry :=
  ("Success generating scaled version for " ++ JS.to_string (blob_name sourceFile),
   None).

(** Whether the generator takes the EXIF path once rendering succeeded. *)
Definition takesExifPath (spec : GenSpec) (sourceFile : Blob) : bool :=
  gen_includeExif spec
  && (blob_type sourceFile =? "image/jpeg")%string
  && JS.strict_eq (gen_type spec) (Some "image/jpeg").

(** ** Sample surroundings and inputs *)

(** A platform without TIFF previews, with the previewable types of
    [qq.Identify]. *)
Definition noTiffPlatform : Platform :=
  {| imagePreviews := true;
     tiffPreviews := false;
     PREVIEWABLE_MIME_TYPES :=
       ["image/jpeg"; "image/gif"; "image/png"; "image/bmp"; "image/tiff"];
     isPreviewableSync := fun b =>
       qq.indexOf_found ["image/jpeg"; "image/gif"; "image/png"; "image/bmp"]
                        (blob_type b);
     uniqueId := fun n => string_of_list_ascii (repeat "u"%char (S n)) |}.

(** The same platform with TIFF previews. *)
Definition tiffPlatform : Platform :=
  {| imagePreviews := true;
     tiffPreviews := true;
     PREVIEWABLE_MIME_TYPES := PREVIEWABLE_MIME_TYPES noTiffPlatform;
     isPreviewableSync := fun b =>
       qq.indexOf_found (PREVIEWABLE_MIME_TYPES noTiffPlatform) (blob_type b);
     uniqueId := uniqueId noTiffPlatform |}.

(** The reference of the scenario of section 8: "photo.jpg", a JPEG. *)
Definition photo (bytes : list N) : Blob :=
  {| blob_type := "image/jpeg"; blob_name := Some "photo.jpg"; blob_bytes := bytes |}.

(** A file the platform cannot preview. *)
Definition notes : Blob :=
  {| blob_type := "text/plain"; blob_name := Some "notes.txt"; blob_bytes := [104; 105]%N |}.

(** The configuration of the scenario: two sizes, the original included,
    no default type and no per-size type. *)
Definition scenarioSpec (orient includeExif : bool) (defaultQuality : Z)
    (failureText : string) : ScalerSpec :=
  {| sendOriginal := true;
     orient := orient;
     defaultType := None;
     defaultQuality := defaultQuality;
     failureText := failureText;
     includeExif := includeExif;
     sizes := [ {| maxSize := 100; name := "small"; type := None |};
                {| maxSize := 400; name := "large"; type := None |} ] |}.

(** A short base64 JPEG Data-URI: the bytes FF D8 FF. *)
Definition tinyJpegUri : string := "data:image/jpeg;base64,/9j/".

(** Collaborators whose rendering engine fails. *)
Definition renderFails : Collaborators :=
  {| generate := fun _ _ _ => false;
     toDataURL := fun _ _ _ => tinyJpegUri;
     readAsDataURL := fun _ => Some tinyJpegUri;
     restore := fun _ scaled => Some scaled |}.

(** Collaborators that render, but whose reader reports an error. *)
Definition readFails : Collaborators :=
  {| generate := fun _ _ _ => true;
     toDataURL := fun _ _ _ => tinyJpegUri;
     readAsDataURL := fun _ => None;
     restore := fun _ scaled => Some scaled |}.

(** Collaborators that render and read, but whose [ExifRestorer.restore]
    throws. *)
Definition restoreThrows : Collaborators :=
  {| generate := fun _ _ _ => true;
     toDataURL := fun _ _ _ => tinyJpegUri;
     readAsDataURL := fun _ => Some tinyJpegUri;
     restore := fun _ _ => None |}.

(** A generator bound for a JPEG variant with EXIF preservation. *)
Definition exifGen : GenSpec :=
  {| gen_maxSize := 100;
     gen_orient := true;
     gen_type := Some "image/jpeg";
     gen_quality := (80 # 100)%Q;
     gen_failedText := "Failed to scale";
     gen_includeExif := true |}.

(** ** Reference definitions for the codec's specification *)

(** [lacks c s]: the character [c] does not occur in [s]. *)
Fixpoint lacks (c : ascii) (s : string) : bool :=
  match s with
  | EmptyString => true
  | String x r => negb (Ascii.eqb x c) && lacks c r
  end.

(** The text before the first [sep], the whole string when there is none. *)
Fixpoint beforeFirst (sep : ascii) (s : string) : string :=
  match s with
  | EmptyString => EmptyString
  | String c r => if Ascii.eqb c sep then EmptyString else String c (beforeFirst sep r)
  end.

(** The entire remainder after the first [sep]; [None] when there is no
    [sep]. *)
Fixpoint afterFirst (sep : ascii) (s : string) : option string :=
  match s with
  | EmptyString => None
  | String c r => if Ascii.eqb c sep then Some r else afterFirst sep r
  end.

(** The codec as the specification words it: the Data-URI is cut at its
    first comma only, the header is the text before it and the payload is
    the entire remainder; the header is then read and the payload decoded
    as in [_dataUriToBlob]. *)
Definition toBinary_firstComma (dataUri : string) : option Blob :=
  let header := beforeFirst "," dataUri in
  let payload := JS.to_string (afterFirst "," dataUri) in
  match (if JS.includes "base64" header
         then JS.atob payload
         else JS.decodeURI payload) with
  | None => None
  | Some byteString =>
      match JS.index (JS.split ":" header) 1 with
      | None => None
      | Some afterColon =>
          let mimeString := hd EmptyString (JS.split ";" afterColon) in
          Some (_createBlob (toUint8Array byteString) mimeString)
      end
  end.

(** Modelled from the spec: the encoding side of the round trip, "encoding
    a known byte sequence into a Data-URI", is not part of [scaler.js].
    [btoa] is standard base64 with padding, [percentEncode] writes every
    byte as "%" followed by two hexadecimal digits, and the two builders
    put the header of section 4.4 in front: "data:<mime>;base64," or
    "data:<mime>,". *)
Definition b64char (v : N) : ascii :=
  nth (N.to_nat v)
      (list_ascii_of_string
         "ABCDEFGHIJKLMNOPQRSTUVWXYZabcdefghijklmnopqrstuvwxyz0123456789+/")
      "="%char.

Fixpoint btoa (bytes : list N) : list ascii :=
  match bytes with
  | a :: b :: c :: r =>
      let n := ((a * 256 + b) * 256 + c)%N in
      b64char (n / 262144) :: b64char ((n / 4096) mod 64)
        :: b64char ((n / 64) mod 64) :: b64char (n mod 64) :: btoa r
  | [a; b] =>
      let n := ((a * 256 + b) * 4)%N in
      [b64char (n / 4096); b64char ((n / 64) mod 64); b64char (n mod 64); "="%char]
  | [a] =>
      let n := (a * 16)%N in
      [b64char (n / 64); b64char (n mod 64); "="%char; "="%char]
  | [] => []
  end.

Definition hexdigit (v : N) : ascii :=
  nth (N.to_nat v) (list_ascii_of_string "0123456789ABCDEF") "0"%char.

Fixpoint percentEncode (bytes : list N) : string :=
  match bytes with
  | [] => EmptyString
  | b :: r =>
      String "%" (String (hexdigit (b / 16)) (String (hexdigit (b mod 16)) (percentEncode r)))
  end.

Definition base64DataUri (mime : string) (bytes : list N) : string :=
  "data:" ++ mime ++ ";base64," ++ string_of_list_ascii (btoa bytes).

Definition percentDataUri (mime : string) (bytes : list N) : string :=
  "data:" ++ mime ++ "," ++ percentEncode bytes.

(** The sextets [btoa] writes before the padding. *)
Fixpoint unpadded (bytes : list N) : list N :=
  match bytes with
  | a :: b :: c :: r =>
      let n := ((a * 256 + b) * 256 + c)%N in
      (n / 262144 :: (n / 4096) mod 64 :: (n / 64) mod 64 :: n mod 64 :: unpadded r)%N
  | [a; b] =>
      let n := ((a * 256 + b) * 4)%N in
      [n / 4096; (n / 64) mod 64; n mod 64]%N
  | [a] =>
      let n := (a * 16)%N in
      [n / 64; n mod 64]%N
  | [] => []
  end.

(** The padding [btoa] appends. *)
Fixpoint padding (bytes : list N) : list ascii :=
  match bytes with
  | _ :: _ :: _ :: r => padding r
  | [_; _] => ["="%char]
  | [_] => ["="%char; "="%char]
  | [] => []
  end.

(** The escapes [scan] finds in an encoded payload. *)
Definition escapeOf (b : N) : JS.UriToken :=
  JS.Escape (hexdigit (b / 16)) (hexdigit (b mod 16)) b.

(** The bytes of the text "undefined". *)
Definition undefinedBytes : list N := [117; 110; 100; 101; 102; 105; 110; 101; 100]%N.

(** A generator's settings with EXIF preservation switched off. *)
Definition withoutExif (spec : GenSpec) : GenSpec :=
  {| gen_maxSize := gen_maxSize spec;
     gen_orient := gen_orient spec;
     gen_type := gen_type spec;
     gen_quality := gen_quality spec;
     gen_failedText := gen_failedText spec;
     gen_includeExif := false |}.

(** Collaborators that render, read and restore without trouble; the
    restorer hands back the Data-URI of a JPEG with the bytes FF D8 FF
    E1. *)
Definition allSucceed : Collaborators :=
  {| generate := fun _ _ _ => true;
     toDataURL := fun _ _ _ => tinyJpegUri;
     readAsDataURL := fun _ => Some tinyJpegUri;
     restore := fun _ _ => Some "data:image/jpeg;base64,/9j/4Q==" |}.

(** A generator bound for a PNG variant. *)
Definition pngGen : GenSpec :=
  {| gen_maxSize := 100;
     gen_orient := true;
     gen_type := Some "image/png";
     gen_quality := (80 # 100)%Q;
     gen_failedText := "Failed to scale";
     gen_includeExif := true |}.

(** [typeKept t]: the type [t] is printable ASCII without upper-case
    letters, so that a blob made with it reports it unchanged. *)
Fixpoint typeKept (t : string) : bool :=
  match t with
  | EmptyString => true
  | String c r =>
      JS.is_printable c
      && negb ((65 <=? JS.code c)%N && (JS.code c <=? 90)%N)
      && typeKept r
  end.

(** ** Facts about strings *)

Lemma append_assoc (a b c : string) : (a ++ b) ++ c = a ++ (b ++ c).
Proof.
  induction a as [|x a IH]; simpl; [reflexivity | now rewrite IH].
Qed.

Lemma append_empty_r (a : string) : a ++ "" = a.
Proof.
  induction a as [|x a IH]; simpl; [reflexivity | now rewrite IH].
Qed.

Lemma lacks_app (c : ascii) (a b : string) :
  lacks c (a ++ b) = lacks c a && lacks c b.
Proof.
  induction a as [|x a IH]; simpl; [reflexivity|].
  rewrite IH. now rewrite andb_assoc.
Qed.

Lemma split_nonempty (sep : ascii) (s : string) : JS.split sep s <> [].
Proof.
  destruct s as [|c r]; simpl; [discriminate|].
  destruct (Ascii.eqb c sep); [discriminate|].
  destruct (JS.split sep r); discriminate.
Qed.

Lemma split_lacks (sep : ascii) (s : string) :
  lacks sep s = true -> JS.split sep s = [s].
Proof.
  induction s as [|c r IH]; simpl; [reflexivity|].
  intros H. apply andb_true_iff in H. destruct H as [Hc Hr].
  apply negb_true_iff in Hc. rewrite Hc, (IH Hr). reflexivity.
Qed.

Lemma split_app (sep : ascii) (a b : string) :
  lacks sep a = true ->
  JS.split sep (a ++ String sep b) = a :: JS.split sep b.
Proof.
  induction a as [|c r IH]; simpl.
  - intros _. now rewrite Ascii.eqb_refl.
  - intros H. apply andb_true_iff in H. destruct H as [Hc Hr].
    apply negb_true_iff in Hc. rewrite Hc, (IH Hr). reflexivity.
Qed.

Lemma split_head (sep : ascii) (s : string) :
  hd EmptyString (JS.split sep s) = beforeFirst sep s.
Proof.
  induction s as [|c r IH]; simpl; [reflexivity|].
  destruct (Ascii.eqb c sep); [reflexivity|].
  rewrite <- IH. destruct (JS.split sep r) eqn:E; [|reflexivity].
  now apply split_nonempty in E.
Qed.

Lemma split_second (sep : ascii) (s : string) :
  JS.index (JS.split sep s) 1 = option_map (beforeFirst sep) (afterFirst sep s).
Proof.
  induction s as [|c r IH]; simpl; [reflexivity|].
  destruct (Ascii.eqb c sep).
  - simpl. unfold JS.index. simpl.
    rewrite <- split_head. destruct (JS.split sep r) eqn:E; [|reflexivity].
    now apply split_nonempty in E.
  - rewrite <- IH. destruct (JS.split sep r) eqn:E; [|reflexivity].
    now apply split_nonempty in E.
Qed.

Lemma lacks_beforeFirst (sep : ascii) (s : string) :
  lacks sep (beforeFirst sep s) = true.
Proof.
  induction s as [|c r IH]; simpl; [reflexivity|].
  destruct (Ascii.eqb c sep) eqn:E; simpl; [reflexivity|].
  now rewrite E, IH.
Qed.

Lemma beforeFirst_lacks (sep : ascii) (s : string) :
  lacks sep s = true -> beforeFirst sep s = s.
Proof.
  induction s as [|c r IH]; simpl; [reflexivity|].
  intros H. apply andb_true_iff in H. destruct H as [Hc Hr].
  apply negb_true_iff in Hc. now rewrite Hc, (IH Hr).
Qed.

Lemma beforeFirst_app (sep : ascii) (a b : string) :
  lacks sep a = true -> beforeFirst sep (a ++ String sep b) = a.
Proof.
  induction a as [|c r IH]; simpl.
  - intros _. now rewrite Ascii.eqb_refl.
  - intros H. apply andb_true_iff in H. destruct H as [Hc Hr].
    apply negb_true_iff in Hc. now rewrite Hc, (IH Hr).
Qed.

Lemma afterFirst_app (sep : ascii) (a b : string) :
  lacks sep a = true -> afterFirst sep (a ++ String sep b) = Some b.
Proof.
  induction a as [|c r IH]; simpl.
  - intros _. now rewrite Ascii.eqb_refl.
  - intros H. apply andb_true_iff in H. destruct H as [Hc Hr].
    apply negb_true_iff in Hc. now rewrite Hc, (IH Hr).
Qed.

Lemma lastIndexOf_lower (c : ascii) (s : string) : -1 <= JS.lastIndexOf c s.
Proof.
  induction s as [|x r IH]; simpl; [lia|].
  destruct (0 <=? JS.lastIndexOf c r) eqn:E; [lia|].
  destruct (Ascii.eqb x c); lia.
Qed.

Lemma lastIndexOf_lacks (c : ascii) (s : string) :
  lacks c s = true -> JS.lastIndexOf c s = -1.
Proof.
  induction s as [|x r IH]; simpl; [reflexivity|].
  intros H. apply andb_true_iff in H. destruct H as [Hc Hr].
  apply negb_true_iff in Hc. rewrite (IH Hr), Hc. reflexivity.
Qed.

Lemma lastIndexOf_app (c : ascii) (a e : string) :
  lacks c e = true ->
  JS.lastIndexOf c (a ++ String c e) = Z.of_nat (String.length a).
Proof.
  intros He. induction a as [|x a IH].
  - simpl. rewrite (lastIndexOf_lacks _ _ He), Ascii.eqb_refl. reflexivity.
  - cbn [append JS.lastIndexOf String.length]. rewrite IH.
    destruct (0 <=? Z.of_nat (String.length a)) eqn:E; [lia|].
    apply Z.leb_gt in E. lia.
Qed.

(** A name in which [c] occurs splits at its last occurrence. *)
Lemma lastIndexOf_split (c : ascii) (s : string) :
  0 <= JS.lastIndexOf c s ->
  exists a e, s = a ++ String c e /\ lacks c e = true.
Proof.
  induction s as [|x r IH]; simpl; [lia|].
  destruct (0 <=? JS.lastIndexOf c r) eqn:E.
  - intros _. apply Z.leb_le in E. destruct (IH E) as (a & e & -> & He).
    exists (String x a), e. split; [reflexivity | exact He].
  - destruct (Ascii.eqb x c) eqn:Ex; [|lia].
    intros _. apply Ascii.eqb_eq in Ex. subst x.
    exists EmptyString, r. split; [reflexivity|].
    apply Z.leb_gt in E.
    clear IH. induction r as [|y r IH]; simpl in *; [reflexivity|].
    destruct (0 <=? JS.lastIndexOf c r) eqn:E'.
    + apply Z.leb_le in E'. lia.
    + destruct (Ascii.eqb y c); [lia|]. simpl. apply IH.
      now apply Z.leb_gt in E'.
Qed.

Lemma substring_prefix (a b : string) :
  String.substring 0 (String.length a) (a ++ b) = a.
Proof.
  induction a as [|x a IH]; simpl.
  - destruct b; reflexivity.
  - now rewrite IH.
Qed.

Lemma substring_suffix (a : string) (c : ascii) (e : string) :
  String.substring (S (String.length a)) (String.length e) (a ++ String c e) = e.
Proof.
  induction a as [|x a IH]; simpl.
  - rewrite <- (append_empty_r e) at 2. apply substring_prefix.
  - exact IH.
Qed.

Lemma length_app (a b : string) :
  String.length (a ++ b) = (String.length a + String.length b)%nat.
Proof.
  induction a as [|x a IH]; simpl; [reflexivity | now rewrite IH].
Qed.

Lemma getExtension_app (a e : string) :
  lacks "." e = true -> qq.getExtension (a ++ String "." e) = Some e.
Proof.
  intros He. unfold qq.getExtension, JS.substr.
  rewrite (lastIndexOf_app _ a e He).
  destruct (0 <? Z.of_nat (String.length a) + 1) eqn:E.
  2:{ apply Z.ltb_ge in E. lia. }
  f_equal. rewrite length_app. simpl String.length.
  replace (Z.to_nat (Z.of_nat (String.length a) + 1)) with (S (String.length a)) by lia.
  replace (Z.to_nat (Z.of_nat (String.length a + S (String.length e))
                     - (Z.of_nat (String.length a) + 1)))
    with (String.length e) by lia.
  apply substring_suffix.
Qed.

Lemma strict_eq_Some (a : option string) (s : string) :
  JS.strict_eq a (Some s) = true <-> a = Some s.
Proof.
  destruct a as [x|]; simpl.
  - rewrite String.eqb_eq. split; [now intros -> | now intros [= ->]].
  - split; discriminate.
Qed.

(** ** The type negotiator *)

(** C6, as stated, fails: a default type is returned verbatim, so with
    [defaultType = "image/tiff"] and no requested type the negotiator
    answers "image/tiff" on a platform whose TIFF flag is false. *)
Lemma determineOutputType_tiff_without_capability :
  tiffPreviews noTiffPlatform = false /\
  _determineOutputType noTiffPlatform None (Some "image/tiff") (Some "image/jpeg")
    = Some "image/tiff".
Proof. split; reflexivity. Qed.

(** C6, amended: the negotiator returns "image/tiff" only when the
    TIFF-preview flag is true or the default type itself is "image/tiff". *)
Theorem determineOutputType_tiff_needs_capability_or_default
    (P : Platform) (requestedType defaultType referenceType : option string) :
  _determineOutputType P requestedType defaultType referenceType = Some "image/tiff" ->
  tiffPreviews P = true \/ defaultType = Some "image/tiff".
Proof.
  unfold _determineOutputType.
  destruct (negb (JS.truthy defaultType) && negb (JS.truthy requestedType)).
  - destruct (JS.strict_eq referenceType (Some "image/jpeg")) eqn:E; simpl.
    + apply strict_eq_Some in E. subst referenceType. discriminate.
    + discriminate.
  - destruct (negb (JS.truthy requestedType)); [now right|].
    destruct (qq.indexOf_found _ _); [|now right].
    destruct (JS.strict_eq requestedType (Some "image/tiff")) eqn:E.
    + destruct (tiffPreviews P); [now left | now right].
    + intros H. apply strict_eq_Some in H. congruence.
Qed.

Lemma determineOutputType_tiff_needs_capability_or_default_witness :
  tiffPreviews tiffPlatform = true \/ @None string = Some "image/tiff".
Proof.
  apply (determineOutputType_tiff_needs_capability_or_default
           tiffPlatform (Some "image/tiff") None (Some "image/png")).
  reflexivity.
Defined.

(** ** The name deriver *)

Lemma getName_dotted (a e label : string) (ty refType : option string) :
  lacks "." e = true ->
  _getName (a ++ String "." e) label ty refType =
  a ++ " (" ++ label ++ ")" ++ "." ++
    JS.to_string
      (if negb (JS.strict_eq refType (Some (JS.or_else ty "image/png")))
       then JS.index (JS.split "/" (JS.or_else ty "image/png")) 1
       else Some e).
Proof.
  intros He. unfold _getName.
  rewrite (lastIndexOf_app _ a e He), (getExtension_app a e He).
  destruct (0 <=? Z.of_nat (String.length a)) eqn:E.
  2:{ apply Z.leb_gt in E. lia. }
  unfold JS.substr. rewrite Nat2Z.id. simpl (Z.to_nat 0).
  rewrite substring_prefix. f_equal. now rewrite !append_assoc.
Qed.

(** C7, as stated, fails when the type is absent: [undefined], or the
    empty string that a blob of unknown type carries, is replaced by
    "image/png", which differs from the reference type, and the extension
    becomes "png". *)
Lemma getName_absent_type_changes_extension :
  qq.getExtension (_getName "photo.jpg" "small" None None)
    <> qq.getExtension "photo.jpg" /\
  qq.getExtension (_getName "photo.jpg" "small" (Some "") (Some ""))
    <> qq.getExtension "photo.jpg".
Proof. split; vm_compute; discriminate. Qed.

(** C7, amended: for every original name X, label, and non-empty type t
    given both as negotiated type and as reference type, the derived name
    has the extension of X. *)
Theorem getName_keeps_extension (X label t ext : string) :
  t <> "" ->
  qq.getExtension X = Some ext ->
  qq.getExtension (_getName X label (Some t) (Some t)) = Some ext.
Proof.
  intros Ht HX.
  assert (Hdot : 0 <= JS.lastIndexOf "." X).
  { unfold qq.getExtension in HX.
    destruct (0 <? JS.lastIndexOf "." X + 1) eqn:E; [|discriminate].
    apply Z.ltb_lt in E. lia. }
  destruct (lastIndexOf_split _ _ Hdot) as (a & e & -> & He).
  rewrite (getExtension_app a e He) in HX. injection HX as ->.
  rewrite (getName_dotted a ext label _ _ He).
  assert (Hor : JS.or_else (Some t) "image/png" = t).
  { simpl. destruct (t =? "")%string eqn:E; [|reflexivity].
    apply String.eqb_eq in E. contradiction. }
  rewrite Hor. simpl JS.strict_eq. rewrite String.eqb_refl. simpl.
  change (a ++ String " " (String "(" (label ++ String ")" (String "." ext))))
    with (a ++ " (" ++ label ++ ")" ++ String "." ext).
  rewrite <- (append_assoc label), <- (append_assoc " ("), <- append_assoc.
  apply getExtension_app, He.
Qed.

Lemma getName_keeps_extension_witness :
  qq.getExtension (_getName "photo.jpg" "small" (Some "image/jpeg") (Some "image/jpeg"))
  = Some "jpg".
Proof.
  apply (getName_keeps_extension "photo.jpg" "small" "image/jpeg" "jpg").
  - discriminate.
  - reflexivity.
Defined.

(** C10: when the negotiated type is absent ([undefined] or empty),
    "image/png" stands in for it: a name [base.ext] becomes
    [base (label).png] unless the reference type is "image/png", in which
    case the extension is kept.  By [lastIndexOf_split] every name that
    contains a "." has the form [base ++ "." ++ ext] with no "." in
    [ext]. *)
Theorem getName_absent_type (base ext label : string) (ty refType : option string) :
  JS.truthy ty = false ->
  lacks "." ext = true ->
  _getName (base ++ "." ++ ext) label ty refType =
  base ++ " (" ++ label ++ ")" ++ "." ++
    (if JS.strict_eq refType (Some "image/png") then ext else "png").
Proof.
  intros Hty He.
  change (base ++ "." ++ ext) with (base ++ String "." ext).
  rewrite (getName_dotted base ext label ty refType He).
  assert (Hor : JS.or_else ty "image/png" = "image/png").
  { destruct ty as [s|]; simpl in *; [|reflexivity].
    destruct (s =? "")%string; [reflexivity | discriminate]. }
  rewrite Hor.
  destruct (JS.strict_eq refType (Some "image/png")); reflexivity.
Qed.

Lemma getName_absent_type_witness :
  _getName ("photo" ++ "." ++ "jpg") "small" None (Some "image/jpeg")
  = "photo" ++ " (" ++ "small" ++ ")" ++ "." ++ "png".
Proof.
  apply (getName_absent_type "photo" "jpg" "small" None (Some "image/jpeg"));
    reflexivity.
Defined.

(** ** Size ordering *)

Section SortFacts.
Context {A : Type} (cmp : A -> A -> Z) (key : A -> Z).
Hypothesis cmp_key : forall a b, cmp a b <= 0 <-> key a <= key b.

Let byKey (a b : A) : Prop := key a <= key b.

Lemma insert_perm (x : A) (l : list A) : Permutation (JS.insert cmp x l) (x :: l).
Proof.
  induction l as [|y r IH]; simpl; [apply Permutation_refl|].
  destruct (cmp x y <=? 0); [apply Permutation_refl|].
  apply perm_trans with (y :: x :: r); [now apply perm_skip | apply perm_swap].
Qed.

Lemma sort_perm (l : list A) : Permutation (JS.sort cmp l) l.
Proof.
  induction l as [|x r IH]; simpl; [apply perm_nil|].
  apply perm_trans with (x :: JS.sort cmp r);
    [apply insert_perm | now apply perm_skip].
Qed.

Lemma insert_sorted (x : A) (l : list A) :
  StronglySorted byKey l -> StronglySorted byKey (JS.insert cmp x l).
Proof.
  induction 1 as [|y r Hr IH Hy]; simpl.
  - constructor; constructor.
  - destruct (cmp x y <=? 0) eqn:E.
    + apply Z.leb_le, cmp_key in E.
      constructor; [now constructor|].
      constructor; [exact E|].
      eapply Forall_impl; [|exact Hy]. unfold byKey. intros z Hz. lia.
    + apply Z.leb_gt in E.
      assert (Hyx : byKey y x).
      { unfold byKey. destruct (Z.le_gt_cases (key x) (key y)) as [H|H]; [|lia].
        apply cmp_key in H. lia. }
      constructor; [exact IH|].
      apply (Permutation_Forall (Permutation_sym (insert_perm x r))).
      now constructor.
Qed.

Lemma sort_sorted (l : list A) : StronglySorted byKey (JS.sort cmp l).
Proof.
  induction l as [|x r IH]; simpl; [constructor | now apply insert_sorted].
Qed.

Lemma sort_sorted_keys (l : list A) :
  StronglySorted Z.le (map key (JS.sort cmp l)).
Proof.
  generalize (sort_sorted l). generalize (JS.sort cmp l) as s.
  induction 1 as [|y r Hr IH Hy]; simpl; constructor; [exact IH|].
  now apply Forall_map.
Qed.
End SortFacts.

Lemma compareSizes_key (a b : SizeRecord) :
  compareSizes a b <= 0 <-> maxSize a <= maxSize b.
Proof.
  unfold compareSizes.
  destruct (maxSize a >? maxSize b) eqn:E1.
  - apply Z.gtb_lt in E1. lia.
  - destruct (maxSize a <? maxSize b) eqn:E2.
    + apply Z.ltb_lt in E2. lia.
    + apply Z.ltb_ge in E2.
      assert (~ maxSize b < maxSize a) by (rewrite <- Z.gtb_lt; congruence).
      lia.
Qed.

Lemma getSortedSizes_sorted (sizes : list SizeRecord) :
  StronglySorted Z.le (map maxSize (_getSortedSizes sizes)).
Proof. apply sort_sorted_keys, compareSizes_key. Qed.

Lemma getSortedSizes_perm (sizes : list SizeRecord) :
  Permutation (_getSortedSizes sizes) sizes.
Proof. apply sort_perm. Qed.

(** Two ascending lists with the same elements are the same list. *)
Lemma sorted_perm_unique (l1 l2 : list Z) :
  StronglySorted Z.le l1 -> StronglySorted Z.le l2 -> Permutation l1 l2 -> l1 = l2.
Proof.
  intros H1. revert l2. induction H1 as [|x l1 Hs1 IH Hx]; intros l2 H2 Hp.
  - now apply Permutation_nil in Hp.
  - destruct H2 as [|y l2 Hs2 Hy].
    + apply Permutation_sym, Permutation_nil in Hp. discriminate.
    + assert (Hxy : x = y).
      { assert (Hin1 : In y (x :: l1))
          by (apply (Permutation_in _ (Permutation_sym Hp)); now left).
        assert (Hin2 : In x (y :: l2))
          by (apply (Permutation_in _ Hp); now left).
        rewrite Forall_forall in Hx, Hy.
        destruct Hin1 as [E|Hin1]; [now symmetry|].
        destruct Hin2 as [E|Hin2]; [now symmetry|].
        specialize (Hx _ Hin1). specialize (Hy _ Hin2). lia. }
      subst y. f_equal. apply IH; [exact Hs2|].
      now apply Permutation_cons_inv in Hp.
Qed.

(** The order of the sizes does not depend on the algorithm behind
    [Array.prototype.sort]: any sort that permutes its input and leaves it
    ascending for [compareSizes] yields the sizes of [_getSortedSizes]. *)
Section AnyEngineSort.
Variable engineSort : list SizeRecord -> list SizeRecord.
Hypothesis engineSort_perm : forall l, Permutation (engineSort l) l.
Hypothesis engineSort_sorted :
  forall l, StronglySorted (fun a b => compareSizes a b <= 0) (engineSort l).

Lemma engineSort_sizes (sizes : list SizeRecord) :
  map maxSize (engineSort sizes) = map maxSize (_getSortedSizes sizes).
Proof.
  apply sorted_perm_unique.
  - generalize (engineSort_sorted sizes). generalize (engineSort sizes) as s.
    induction 1 as [|y r Hr IH Hy]; simpl; constructor; [exact IH|].
    apply Forall_map. eapply Forall_impl; [|exact Hy].
    intros z Hz. now apply compareSizes_key.
  - apply getSortedSizes_sorted.
  - apply Permutation_map.
    apply perm_trans with sizes;
      [apply engineSort_perm | apply Permutation_sym, getSortedSizes_perm].
Qed.
End AnyEngineSort.

(** ** The orchestrator *)

Section OrchestratorFacts.
Variable P : Platform.
Variable self : Scaler.
Variables (originalFileName : string) (originalBlob : Blob).

Lemma fold_pushScaledRecord (l : list SizeRecord) (acc : list FileRecord) (ids : nat) :
  fold_left (pushScaledRecord P self originalFileName originalBlob) l (acc, ids)
  = ((acc ++ scaledRecords P self originalFileName originalBlob ids l)%list,
     (ids + List.length l)%nat).
Proof.
  revert acc ids. induction l as [|s r IH]; intros acc ids; simpl.
  - now rewrite app_nil_r, Nat.add_0_r.
  - rewrite IH, <- app_assoc. simpl. f_equal. lia.
Qed.

Lemma scaledRecords_maxSize (l : list SizeRecord) (ids : nat) :
  map variantMaxSize (scaledRecords P self originalFileName originalBlob ids l)
  = map Some (map maxSize l).
Proof.
  revert ids. induction l as [|s r IH]; intros ids; simpl; [reflexivity|].
  now rewrite IH.
Qed.

Lemma scaledRecords_blob (l : list SizeRecord) (ids : nat) (r : FileRecord) :
  In r (scaledRecords P self originalFileName originalBlob ids l) ->
  exists gen, blob r = BlobProxy originalBlob gen
              /\ gen_failedText gen = failedToScaleText self.
Proof.
  revert ids. induction l as [|s l IH]; intros ids; simpl; [contradiction|].
  intros [<- | H]; [|now apply (IH (S ids))].
  eexists. split; reflexivity.
Qed.

Lemma getFileRecords_unfold (ids : nat) (originalFileUuid : string)
    (src : BlobOrBlobData) :
  originalBlobOf src = originalBlob ->
  fst (getFileRecords P self ids originalFileUuid originalFileName src)
  = ((if isPreviewableSync P originalBlob
      then scaledRecords P self originalFileName originalBlob ids (sc_sizes self)
      else [])
     ++ (if includeReference self
         then [referenceRecord originalFileUuid originalFileName originalBlob]
         else []))%list.
Proof.
  intros Hsrc. unfold getFileRecords. rewrite Hsrc.
  destruct (isPreviewableSync P originalBlob).
  - rewrite fold_pushScaledRecord. simpl.
    destruct (includeReference self); simpl; [reflexivity | now rewrite app_nil_r].
  - destruct (includeReference self); reflexivity.
Qed.
End OrchestratorFacts.

(** C1: for a previewable reference the records are the scaled variants,
    whose sizes are the configured ones in non-decreasing order, followed
    by the record of the untouched reference when [sendOriginal] is set,
    which is then the last element. *)
Theorem getFileRecords_ascending_reference_last
    (P : Platform) (spec : ScalerSpec) (ids : nat)
    (originalFileUuid originalFileName : string) (src : BlobOrBlobData) :
  isPreviewableSync P (originalBlobOf src) = true ->
  let records :=
    fst (getFileRecords P (new_Scaler P spec) ids originalFileUuid originalFileName src) in
  let reference :=
    referenceRecord originalFileUuid originalFileName (originalBlobOf src) in
  exists (scaled : list FileRecord) (ms : list Z),
    records = (scaled ++ (if sendOriginal spec then [reference] else []))%list
    /\ map variantMaxSize scaled = map Some ms
    /\ Permutation ms (map maxSize (sizes spec))
    /\ StronglySorted Z.le ms
    /\ (sendOriginal spec = true -> last records reference = reference
                                    /\ variantMaxSize reference = None).
Proof.
  intros Hprev records reference. subst records.
  rewrite (getFileRecords_unfold P _ originalFileName (originalBlobOf src) ids
             originalFileUuid src eq_refl).
  rewrite Hprev. cbn [new_Scaler sc_sizes includeReference].
  exists (scaledRecords P (new_Scaler P spec) originalFileName (originalBlobOf src) ids
            (_getSortedSizes (sizes spec))),
         (map maxSize (_getSortedSizes (sizes spec))).
  repeat split.
  - apply scaledRecords_maxSize.
  - apply Permutation_map, getSortedSizes_perm.
  - apply getSortedSizes_sorted.
  - rewrite H. apply last_last.
Qed.

Lemma getFileRecords_ascending_reference_last_witness :
  exists (scaled : list FileRecord) (ms : list Z),
    fst (getFileRecords noTiffPlatform
           (new_Scaler noTiffPlatform (scenarioSpec true false 80 "Failed to scale"))
           0 "ref-uuid" "photo.jpg" (IsBlob (photo [])))
    = (scaled ++ [referenceRecord "ref-uuid" "photo.jpg" (photo [])])%list
    /\ map variantMaxSize scaled = map Some ms
    /\ Permutation ms [100; 400]
    /\ StronglySorted Z.le ms
    /\ last (fst (getFileRecords noTiffPlatform
                    (new_Scaler noTiffPlatform
                       (scenarioSpec true false 80 "Failed to scale"))
                    0 "ref-uuid" "photo.jpg" (IsBlob (photo []))))
            (referenceRecord "ref-uuid" "photo.jpg" (photo []))
       = referenceRecord "ref-uuid" "photo.jpg" (photo []).
Proof.
  destruct (getFileRecords_ascending_reference_last noTiffPlatform
              (scenarioSpec true false 80 "Failed to scale") 0 "ref-uuid" "photo.jpg"
              (IsBlob (photo [])) eq_refl)
    as (scaled & ms & Hrecords & Hsizes & Hperm & Hsorted & Hlast).
  exists scaled, ms.
  split; [exact Hrecords|].
  split; [exact Hsizes|].
  split; [exact Hperm|].
  split; [exact Hsorted|].
  exact (proj1 (Hlast eq_refl)).
Defined.

(** C8: in the scenario of section 8 ("photo.jpg", a JPEG; sizes 100
    "small" and 400 "large"; the original included; no default and no
    requested type) there are exactly three records, named
    "photo (small).jpg", "photo (large).jpg" and "photo.jpg" in that order,
    and the first two are negotiated to "image/jpeg". *)
Theorem getFileRecords_photo_scenario
    (P : Platform) (orient includeExif : bool) (defaultQuality : Z)
    (failureText : string) (ids : nat) (originalFileUuid : string) (bytes : list N) :
  isPreviewableSync P (photo bytes) = true ->
  let records :=
    fst (getFileRecords P
           (new_Scaler P (scenarioSpec orient includeExif defaultQuality failureText))
           ids originalFileUuid "photo.jpg" (IsBlob (photo bytes))) in
  map record_name records = ["photo (small).jpg"; "photo (large).jpg"; "photo.jpg"]
  /\ map variantType records = [Some (Some "image/jpeg"); Some (Some "image/jpeg"); None]
  /\ map variantMaxSize records = [Some 100; Some 400; None]
  /\ map uuid records = [uniqueId P ids; uniqueId P (S ids); originalFileUuid].
Proof.
  intros Hprev records. subst records.
  rewrite (getFileRecords_unfold P _ "photo.jpg" (photo bytes) ids
             originalFileUuid (IsBlob (photo bytes)) eq_refl).
  rewrite Hprev. repeat split.
Qed.

Lemma getFileRecords_photo_scenario_witness :
  map record_name
    (fst (getFileRecords noTiffPlatform
            (new_Scaler noTiffPlatform (scenarioSpec true false 80 "Failed to scale"))
            0 "ref-uuid" "photo.jpg" (IsBlob (photo [255; 216; 255]%N))))
  = ["photo (small).jpg"; "photo (large).jpg"; "photo.jpg"]
  /\ map variantType
       (fst (getFileRecords noTiffPlatform
               (new_Scaler noTiffPlatform (scenarioSpec true false 80 "Failed to scale"))
               0 "ref-uuid" "photo.jpg" (IsBlob (photo [255; 216; 255]%N))))
     = [Some (Some "image/jpeg"); Some (Some "image/jpeg"); None]
  /\ map variantMaxSize
       (fst (getFileRecords noTiffPlatform
               (new_Scaler noTiffPlatform (scenarioSpec true false 80 "Failed to scale"))
               0 "ref-uuid" "photo.jpg" (IsBlob (photo [255; 216; 255]%N))))
     = [Some 100; Some 400; None]
  /\ map uuid
       (fst (getFileRecords noTiffPlatform
               (new_Scaler noTiffPlatform (scenarioSpec true false 80 "Failed to scale"))
               0 "ref-uuid" "photo.jpg" (IsBlob (photo [255; 216; 255]%N))))
     = [uniqueId noTiffPlatform 0; uniqueId noTiffPlatform 1; "ref-uuid"].
Proof.
  apply (getFileRecords_photo_scenario noTiffPlatform true false 80 "Failed to scale"
           0%nat "ref-uuid" [255; 216; 255]%N).
  reflexivity.
Defined.

(** C9: when the previewability check answers false, no size-derived
    record is produced: the result is the record of the reference alone
    when [sendOriginal] is set and the empty list otherwise; the call
    returns normally and draws no identifier. *)
Theorem getFileRecords_not_previewable
    (P : Platform) (spec : ScalerSpec) (ids : nat)
    (originalFileUuid originalFileName : string) (src : BlobOrBlobData) :
  isPreviewableSync P (originalBlobOf src) = false ->
  getFileRecords P (new_Scaler P spec) ids originalFileUuid originalFileName src
  = (if sendOriginal spec
     then [referenceRecord originalFileUuid originalFileName (originalBlobOf src)]
     else [],
     ids).
Proof.
  intros Hprev. unfold getFileRecords. rewrite Hprev.
  cbn [new_Scaler includeReference].
  destruct (sendOriginal spec); reflexivity.
Qed.

Lemma getFileRecords_not_previewable_witness :
  getFileRecords noTiffPlatform
    (new_Scaler noTiffPlatform (scenarioSpec true false 80 "Failed to scale"))
    0 "ref-uuid" "notes.txt" (IsBlob notes)
  = (if sendOriginal (scenarioSpec true false 80 "Failed to scale")
     then [referenceRecord "ref-uuid" "notes.txt" (originalBlobOf (IsBlob notes))]
     else [],
     0%nat).
Proof.
  apply (getFileRecords_not_previewable noTiffPlatform
           (scenarioSpec true false 80 "Failed to scale") 0 "ref-uuid" "notes.txt"
           (IsBlob notes)).
  reflexivity.
Defined.

(** ** The derivative generator *)

Lemma generateScaledImage_render_failure
    (W : Collaborators) (spec : GenSpec) (sourceFile : Blob) :
  generate W sourceFile (gen_maxSize spec) (gen_orient spec) = false ->
  _generateScaledImage W spec sourceFile
  = (Failure (Some (gen_failedText spec)),
     [attemptEntry sourceFile; renderFailedEntry sourceFile]).
Proof.
  intros Hgen. unfold _generateScaledImage. rewrite Hgen. reflexivity.
Qed.

(** C2: whenever the rendering engine fails for a variant of
    [getFileRecords], the variant's promise is rejected with exactly the
    configured [failureText], whatever the EXIF settings, and the failure
    is logged at error severity. *)
Theorem render_failure_rejects_with_failureText
    (P : Platform) (spec : ScalerSpec) (ids : nat)
    (originalFileUuid originalFileName : string) (src : BlobOrBlobData)
    (W : Collaborators) (r : FileRecord) (referenceBlob : Blob) (gen : GenSpec) :
  In r (fst (getFileRecords P (new_Scaler P spec) ids
               originalFileUuid originalFileName src)) ->
  blob r = BlobProxy referenceBlob gen ->
  generate W referenceBlob (gen_maxSize gen) (gen_orient gen) = false ->
  create W (blob r)
  = (Failure (Some (failureText spec)),
     [attemptEntry referenceBlob; renderFailedEntry referenceBlob])
  /\ snd (renderFailedEntry referenceBlob) = Some "error".
Proof.
  intros Hin Hblob Hgen. split; [|reflexivity].
  rewrite (getFileRecords_unfold P _ originalFileName (originalBlobOf src) ids
             originalFileUuid src eq_refl) in Hin.
  apply in_app_or in Hin. destruct Hin as [Hin | Hin].
  - destruct (isPreviewableSync P (originalBlobOf src)); [|contradiction].
    apply scaledRecords_blob in Hin. destruct Hin as (gen' & Hb & Htext).
    rewrite Hblob in Hb. injection Hb as -> <-.
    rewrite Hblob. simpl create.
    rewrite (generateScaledImage_render_failure W gen _ Hgen).
    now rewrite Htext.
  - destruct (includeReference (new_Scaler P spec)); [|contradiction].
    destruct Hin as [<- | []]. discriminate.
Qed.

Lemma render_failure_rejects_with_failureText_witness :
  create renderFails
    (blob (scaledRecord noTiffPlatform
             (new_Scaler noTiffPlatform (scenarioSpec true true 80 "Failed to scale"))
             "photo.jpg" (photo []) 0
             {| maxSize := 100; name := "small"; type := None |}))
  = (Failure (Some (failureText (scenarioSpec true true 80 "Failed to scale"))),
     [attemptEntry (photo []); renderFailedEntry (photo [])])
  /\ snd (renderFailedEntry (photo [])) = Some "error".
Proof.
  eapply (render_failure_rejects_with_failureText noTiffPlatform
            (scenarioSpec true true 80 "Failed to scale") 0 "ref-uuid" "photo.jpg"
            (IsBlob (photo [])) renderFails).
  - left. reflexivity.
  - reflexivity.
  - reflexivity.
Defined.

(** X25: On the EXIF path a failed read of the original is absorbed: the promise
    is resolved with the blob decoded from the rendered Data-URI, and both
    the read problem and the fall-back are logged at error severity. *)
Lemma exif_read_failure_resolves
    (W : Collaborators) (spec : GenSpec) (sourceFile rendered : Blob) :
  generate W sourceFile (gen_maxSize spec) (gen_orient spec) = true ->
  takesExifPath spec sourceFile = true ->
  readAsDataURL W sourceFile = None ->
  _dataUriToBlob (renderedDataUri W spec sourceFile) = Some rendered ->
  _generateScaledImage W spec sourceFile
  = (Success rendered,
     [attemptEntry sourceFile; readFailedEntry sourceFile; insertFailedEntry;
      successEntry sourceFile]).
Proof.
  intros Hgen Hexif Hread Hblob.
  unfold _generateScaledImage. fold (takesExifPath spec sourceFile).
  fold (renderedDataUri W spec sourceFile).
  rewrite Hgen, Hexif. unfold _insertExifHeader, signalSuccess.
  rewrite Hread, Hblob. reflexivity.
Qed.

(** Once rendering has succeeded nothing rejects the promise. *)
Lemma rendered_variant_never_rejected
    (W : Collaborators) (spec : GenSpec) (sourceFile : Blob) (reason : option string) :
  generate W sourceFile (gen_maxSize spec) (gen_orient spec) = true ->
  fst (_generateScaledImage W spec sourceFile) <> Failure reason.
Proof.
  intros Hgen. unfold _generateScaledImage. fold (takesExifPath spec sourceFile).
  rewrite Hgen. unfold _insertExifHeader, signalSuccess.
  destruct (takesExifPath spec sourceFile).
  - destruct (readAsDataURL W sourceFile) as [orig|].
    + destruct (restore W orig _) as [merged|]; simpl.
      * destruct (_dataUriToBlob merged); discriminate.
      * discriminate.
    + simpl. destruct (_dataUriToBlob _); discriminate.
  - simpl. destruct (_dataUriToBlob _); discriminate.
Qed.

(** When [ExifRestorer.restore] throws, the exception leaves [reader.onload]
    before [insertionEffort] is settled, so neither callback of the
    generator runs: the promise of the variant stays pending and nothing
    more is logged. *)
Lemma exif_restore_throw_leaves_pending
    (W : Collaborators) (spec : GenSpec) (sourceFile : Blob) (original : string) :
  generate W sourceFile (gen_maxSize spec) (gen_orient spec) = true ->
  takesExifPath spec sourceFile = true ->
  readAsDataURL W sourceFile = Some original ->
  restore W original (renderedDataUri W spec sourceFile) = None ->
  _generateScaledImage W spec sourceFile = (Pending, [attemptEntry sourceFile]).
Proof.
  intros Hgen Hexif Hread Hrestore.
  unfold _generateScaledImage. fold (takesExifPath spec sourceFile).
  fold (renderedDataUri W spec sourceFile).
  rewrite Hgen, Hexif. unfold _insertExifHeader.
  rewrite Hread, Hrestore. reflexivity.
Qed.

(** C3 does not hold for a failure of the transplant itself.  Here a JPEG
    is scaled to a JPEG with EXIF preservation, rendering and the read of
    the original succeed, the rendered Data-URI decodes to a blob, and
    [ExifRestorer.restore] throws: the variant's promise is never resolved
    (and never rejected), and no failure message is logged. *)
Theorem exif_restore_throw_example :
  takesExifPath exifGen (photo [255; 216; 255]%N) = true
  /\ generate restoreThrows (photo [255; 216; 255]%N)
       (gen_maxSize exifGen) (gen_orient exifGen) = true
  /\ readAsDataURL restoreThrows (photo [255; 216; 255]%N) = Some tinyJpegUri
  /\ restore restoreThrows tinyJpegUri
       (renderedDataUri restoreThrows exifGen (photo [255; 216; 255]%N)) = None
  /\ _dataUriToBlob (renderedDataUri restoreThrows exifGen (photo [255; 216; 255]%N))
     = Some (_createBlob [255; 216; 255]%N "image/jpeg")
  /\ _generateScaledImage restoreThrows exifGen (photo [255; 216; 255]%N)
     = (Pending, [attemptEntry (photo [255; 216; 255]%N)]).
Proof. repeat split; vm_compute; reflexivity. Qed.

(** The same run with a reader that fails instead: the variant resolves
    with the rendered blob. *)
Example exif_read_failure_example :
  _generateScaledImage readFails exifGen (photo [255; 216; 255]%N)
  = (Success (_createBlob [255; 216; 255]%N "image/jpeg"),
     [attemptEntry (photo [255; 216; 255]%N); readFailedEntry (photo [255; 216; 255]%N);
      insertFailedEntry; successEntry (photo [255; 216; 255]%N)]).
Proof. vm_compute. reflexivity. Qed.

(** ** The binary codec: where the Data-URI is cut *)

Lemma split_comma_parts (header rest : string) :
  lacks "," header = true ->
  hd EmptyString (JS.split "," (header ++ String "," rest)) = header
  /\ JS.index (JS.split "," (header ++ String "," rest)) 1
     = Some (beforeFirst "," rest).
Proof.
  intros Hh. rewrite split_head, split_second.
  rewrite (beforeFirst_app _ _ _ Hh), (afterFirst_app _ _ _ Hh). now split.
Qed.

(** C5, as stated, fails: [split(",")[1]] is the text between the first
    and the second comma, so a payload that contains a comma is cut
    there.  "data:text/plain,a,b" decodes to the single byte of "a", while
    the codec that takes the entire remainder yields the bytes of "a,b". *)
Lemma dataUriToBlob_truncates_payload_at_comma :
  _dataUriToBlob "data:text/plain,a,b" = Some (_createBlob [97]%N "text/plain")
  /\ toBinary_firstComma "data:text/plain,a,b"
     = Some (_createBlob [97; 44; 98]%N "text/plain")
  /\ _dataUriToBlob "data:text/plain,a,b" <> toBinary_firstComma "data:text/plain,a,b".
Proof.
  split; [vm_compute; reflexivity|].
  split; [vm_compute; reflexivity|].
  vm_compute. discriminate.
Qed.

(** C5, amended: the header is everything before the first comma, and the
    payload that is decoded is the text between the first comma and the
    next one, or up to the end of the string when no comma follows; the
    codec thus agrees with decoding the entire remainder on the Data-URI
    cut at its second comma. *)
Theorem dataUriToBlob_payload_ends_at_next_comma (header rest : string) :
  lacks "," header = true ->
  hd EmptyString (JS.split "," (header ++ "," ++ rest)) = header
  /\ JS.index (JS.split "," (header ++ "," ++ rest)) 1 = Some (beforeFirst "," rest)
  /\ _dataUriToBlob (header ++ "," ++ rest)
     = toBinary_firstComma (header ++ "," ++ beforeFirst "," rest).
Proof.
  intros Hh.
  change (header ++ "," ++ rest) with (header ++ String "," rest).
  change (header ++ "," ++ beforeFirst "," rest)
    with (header ++ String "," (beforeFirst "," rest)).
  destruct (split_comma_parts header rest Hh) as [H0 H1].
  split; [exact H0|]. split; [exact H1|].
  unfold _dataUriToBlob, toBinary_firstComma.
  rewrite H0, H1, (beforeFirst_app _ _ _ Hh), (afterFirst_app _ _ _ Hh).
  reflexivity.
Qed.

Lemma dataUriToBlob_payload_ends_at_next_comma_witness :
  hd EmptyString (JS.split "," ("data:text/plain" ++ "," ++ "a,b")) = "data:text/plain"
  /\ JS.index (JS.split "," ("data:text/plain" ++ "," ++ "a,b")) 1
     = Some (beforeFirst "," "a,b")
  /\ _dataUriToBlob ("data:text/plain" ++ "," ++ "a,b")
     = toBinary_firstComma ("data:text/plain" ++ "," ++ beforeFirst "," "a,b").
Proof.
  apply (dataUriToBlob_payload_ends_at_next_comma "data:text/plain" "a,b").
  reflexivity.
Defined.

(** A payload without a comma is decoded in full: on such Data-URIs the
    codec is the one that cuts at the first comma only. *)
Lemma dataUriToBlob_comma_free_payload (header rest : string) :
  lacks "," header = true ->
  lacks "," rest = true ->
  _dataUriToBlob (header ++ "," ++ rest) = toBinary_firstComma (header ++ "," ++ rest).
Proof.
  intros Hh Hr.
  change (header ++ "," ++ rest) with (header ++ String "," rest).
  destruct (split_comma_parts header rest Hh) as [H0 H1].
  unfold _dataUriToBlob, toBinary_firstComma.
  rewrite H0, H1, (beforeFirst_app _ _ _ Hh), (afterFirst_app _ _ _ Hh).
  now rewrite (beforeFirst_lacks _ _ Hr).
Qed.

(** ** The binary codec: base64 *)

Lemma list_ind3 {A : Type} (Q : list A -> Prop) :
  Q [] -> (forall a, Q [a]) -> (forall a b, Q [a; b]) ->
  (forall a b c r, Q r -> Q (a :: b :: c :: r)) ->
  forall l, Q l.
Proof.
  intros H0 H1 H2 H3 l.
  enough (H : Q l /\ (forall a, Q (a :: l)) /\ (forall a b, Q (a :: b :: l)))
    by apply H.
  induction l as [|x l (IH0 & IH1 & IH2)].
  - repeat split; auto.
  - repeat split; auto.
Qed.

Lemma btoa_unpadded (bytes : list N) :
  btoa bytes = (map b64char (unpadded bytes) ++ padding bytes)%list.
Proof.
  induction bytes as [| a | a b | a b c r IH] using list_ind3;
    try reflexivity.
  cbn [btoa unpadded padding map app]. now rewrite IH.
Qed.

Lemma in_below (bound : nat) (v : N) :
  (v < N.of_nat bound)%N -> In v (map N.of_nat (seq 0 bound)).
Proof.
  intros Hv. rewrite <- (N2Nat.id v). apply in_map, in_seq. lia.
Qed.

Lemma sextet_b64char (v : N) : (v < 64)%N -> JS.sextet (b64char v) = Some v.
Proof.
  intros Hv.
  assert (H : forallb (fun v => match JS.sextet (b64char v) with
                                | Some w => N.eqb w v
                                | None => false
                                end)
                      (map N.of_nat (seq 0 64)) = true) by (vm_compute; reflexivity).
  rewrite forallb_forall in H. specialize (H v (in_below 64 v Hv)).
  destruct (JS.sextet (b64char v)) as [w|]; [|discriminate].
  apply N.eqb_eq in H. now subst.
Qed.

Lemma hexval_hexdigit (v : N) : (v < 16)%N -> JS.hexval (hexdigit v) = Some v.
Proof.
  intros Hv.
  assert (H : forallb (fun v => match JS.hexval (hexdigit v) with
                                | Some w => N.eqb w v
                                | None => false
                                end)
                      (map N.of_nat (seq 0 16)) = true) by (vm_compute; reflexivity).
  rewrite forallb_forall in H. specialize (H v (in_below 16 v Hv)).
  destruct (JS.hexval (hexdigit v)) as [w|]; [|discriminate].
  apply N.eqb_eq in H. now subst.
Qed.

(** A character with a sextet value is neither whitespace, nor "=", nor
    ",". *)
Lemma sextet_plain (c : ascii) (v : N) :
  JS.sextet c = Some v ->
  JS.is_ascii_whitespace c = false /\ Ascii.eqb c "=" = false /\ Ascii.eqb c "," = false.
Proof.
  intros Hc.
  assert (H : forallb (fun n =>
                let c := ascii_of_N n in
                match JS.sextet c with
                | Some _ => negb (JS.is_ascii_whitespace c)
                            && negb (Ascii.eqb c "=") && negb (Ascii.eqb c ",")
                | None => true
                end) (map N.of_nat (seq 0 256)) = true) by (vm_compute; reflexivity).
  rewrite forallb_forall in H.
  specialize (H (N_of_ascii c) (in_below 256 _ (N_ascii_bounded c))).
  cbv zeta in H. rewrite ascii_N_embedding, Hc in H.
  apply andb_true_iff in H. destruct H as [H H3].
  apply andb_true_iff in H. destruct H as [H1 H2].
  now rewrite negb_true_iff in H1, H2, H3.
Qed.

Lemma unpadded_bound (bytes : list N) :
  Forall (fun b => (b < 256)%N) bytes -> Forall (fun v => (v < 64)%N) (unpadded bytes).
Proof.
  induction bytes as [| a | a b | a b c r IH] using list_ind3; intros H.
  - constructor.
  - inversion_clear H. cbn [unpadded].
    repeat constructor.
    + apply N.Div0.div_lt_upper_bound. lia.
    + apply N.mod_lt. discriminate.
  - inversion_clear H as [|? ? Ha H']. inversion_clear H' as [|? ? Hb _].
    cbn [unpadded]. repeat constructor.
    + apply N.Div0.div_lt_upper_bound. lia.
    + apply N.mod_lt. discriminate.
    + apply N.mod_lt. discriminate.
  - inversion_clear H as [|? ? Ha H']. inversion_clear H' as [|? ? Hb H''].
    inversion_clear H'' as [|? ? Hc Hr].
    cbn [unpadded]. repeat constructor; try (apply N.mod_lt; discriminate).
    + apply N.Div0.div_lt_upper_bound. lia.
    + now apply IH.
Qed.

Lemma sextets_map_b64char (vs : list N) :
  Forall (fun v => (v < 64)%N) vs -> JS.sextets (map b64char vs) = Some vs.
Proof.
  induction 1 as [|v vs Hv _ IH]; simpl; [reflexivity|].
  now rewrite (sextet_b64char v Hv), IH.
Qed.

(** Goals about division and remainder by constants, over [N]. *)
Ltac div_lia := zify; Z.to_euclidean_division_equations; lia.

Lemma bytes_of_sextets_unpadded (bytes : list N) :
  Forall (fun b => (b < 256)%N) bytes ->
  JS.bytes_of_sextets (unpadded bytes) = bytes.
Proof.
  induction bytes as [| a | a b | a b c r IH] using list_ind3; intros H.
  - reflexivity.
  - inversion_clear H as [|? ? Ha _]. cbn [unpadded JS.bytes_of_sextets].
    f_equal. div_lia.
  - inversion_clear H as [|? ? Ha H']. inversion_clear H' as [|? ? Hb _].
    cbn [unpadded JS.bytes_of_sextets].
    f_equal; [|f_equal]; div_lia.
  - inversion_clear H as [|? ? Ha H']. inversion_clear H' as [|? ? Hb H''].
    inversion_clear H'' as [|? ? Hc Hr].
    cbn [unpadded JS.bytes_of_sextets]. rewrite (IH Hr).
    f_equal; [|f_equal; [|f_equal]]; div_lia.
Qed.

Lemma mod4_step (n : nat) : Nat.modulo (S (S (S (S n)))) 4 = Nat.modulo n 4.
Proof.
  replace (S (S (S (S n)))) with (n + 1 * 4)%nat by lia.
  apply Nat.Div0.mod_add.
Qed.

Lemma length_btoa_mod4 (bytes : list N) :
  Nat.modulo (List.length (btoa bytes)) 4 = 0%nat.
Proof.
  induction bytes as [| a | a b | a b c r IH] using list_ind3;
    try reflexivity.
  cbn [btoa List.length]. now rewrite mod4_step.
Qed.

Lemma length_unpadded_mod4 (bytes : list N) :
  Nat.modulo (List.length (unpadded bytes)) 4 <> 1%nat.
Proof.
  induction bytes as [| a | a b | a b c r IH] using list_ind3;
    try (cbn; discriminate).
  cbn [unpadded List.length]. now rewrite mod4_step.
Qed.

Lemma padding_cases (bytes : list N) :
  padding bytes = [] \/ padding bytes = ["="%char]
  \/ padding bytes = ["="%char; "="%char].
Proof.
  induction bytes as [| a | a b | a b c r IH] using list_ind3; cbn [padding]; auto.
Qed.

Lemma strip_padding_plain (X pad : list ascii) :
  Forall (fun c => Ascii.eqb c "=" = false) X ->
  Nat.modulo (List.length (X ++ pad)) 4 = 0%nat ->
  pad = [] \/ pad = ["="%char] \/ pad = ["="%char; "="%char] ->
  JS.strip_padding (X ++ pad) = X.
Proof.
  intros HX Hlen Hpad. unfold JS.strip_padding. rewrite Hlen. cbn [Nat.eqb].
  rewrite rev_app_distr.
  assert (Hrev : Forall (fun c => Ascii.eqb c "=" = false) (rev X))
    by now apply Forall_rev.
  assert (HXX : rev (rev X) = X) by apply rev_involutive.
  destruct Hpad as [-> | [-> | ->]]; cbn [rev app].
  - rewrite app_nil_r.
    destruct (rev X) as [|c1 [|c2 r]]; [reflexivity | |];
      inversion_clear Hrev as [|? ? Hc1 _]; now rewrite Hc1.
  - destruct (rev X) as [|c2 r].
    + simpl in HXX. now subst X.
    + inversion_clear Hrev as [|? ? Hc2 _].
      change (Ascii.eqb "=" "=") with true. cbv iota. now rewrite Hc2.
  - change (Ascii.eqb "=" "=") with true. cbv iota. exact HXX.
Qed.

Lemma b64chars_plain (vs : list N) :
  Forall (fun v => (v < 64)%N) vs ->
  Forall (fun c => JS.is_ascii_whitespace c = false
                   /\ Ascii.eqb c "=" = false /\ Ascii.eqb c "," = false)
         (map b64char vs).
Proof.
  intros H. apply Forall_map. eapply Forall_impl; [|exact H].
  intros v Hv. exact (sextet_plain _ _ (sextet_b64char v Hv)).
Qed.

Lemma filter_whitespace_free (l : list ascii) :
  Forall (fun c => JS.is_ascii_whitespace c = false) l ->
  filter (fun c => negb (JS.is_ascii_whitespace c)) l = l.
Proof.
  induction 1 as [|c l Hc _ IH]; simpl; [reflexivity|].
  now rewrite Hc, IH.
Qed.

Lemma padding_whitespace_free (bytes : list N) :
  Forall (fun c => JS.is_ascii_whitespace c = false) (padding bytes).
Proof.
  destruct (padding_cases bytes) as [-> | [-> | ->]]; repeat constructor.
Qed.

(** [atob] undoes [btoa] on every sequence of bytes. *)
Lemma atob_btoa (bytes : list N) :
  Forall (fun b => (b < 256)%N) bytes ->
  JS.atob (string_of_list_ascii (btoa bytes)) = Some bytes.
Proof.
  intros Hb. unfold JS.atob.
  rewrite list_ascii_of_string_of_list_ascii.
  pose proof (b64chars_plain _ (unpadded_bound bytes Hb)) as Hplain.
  rewrite filter_whitespace_free.
  2:{ rewrite btoa_unpadded. apply Forall_app. split.
      - eapply Forall_impl; [|exact Hplain]. now intros c (H & _).
      - apply padding_whitespace_free. }
  pose proof (length_btoa_mod4 bytes) as Hlen.
  rewrite btoa_unpadded in *.
  rewrite strip_padding_plain; [| |exact Hlen|apply padding_cases].
  2:{ eapply Forall_impl; [|exact Hplain]. now intros c (_ & H & _). }
  rewrite length_map.
  destruct (Nat.eqb_spec (Nat.modulo (List.length (unpadded bytes)) 4) 1) as [E|_].
  - now apply length_unpadded_mod4 in E.
  - rewrite (sextets_map_b64char _ (unpadded_bound bytes Hb)). simpl.
    now rewrite bytes_of_sextets_unpadded.
Qed.

(** ** The binary codec: percent-encoding *)

Lemma hexval_not_comma (c : ascii) (v : N) :
  JS.hexval c = Some v -> Ascii.eqb c "," = false.
Proof.
  intros H. destruct (Ascii.eqb_spec c ","%char) as [->|]; [|reflexivity].
  vm_compute in H. discriminate.
Qed.

Lemma hexval_not_percent (c : ascii) (v : N) :
  JS.hexval c = Some v -> Ascii.eqb c "%" = false.
Proof.
  intros H. destruct (Ascii.eqb_spec c "%"%char) as [->|]; [|reflexivity].
  vm_compute in H. discriminate.
Qed.

Lemma lacks_percentEncode (bytes : list N) :
  Forall (fun b => (b < 256)%N) bytes -> lacks "," (percentEncode bytes) = true.
Proof.
  induction 1 as [|b r Hb _ IH]; [reflexivity|].
  cbn [percentEncode lacks]. rewrite IH.
  rewrite (hexval_not_comma _ _ (hexval_hexdigit (b / 16) ltac:(div_lia))).
  rewrite (hexval_not_comma _ _ (hexval_hexdigit (b mod 16) ltac:(div_lia))).
  reflexivity.
Qed.

Lemma scan_percentEncode (bytes : list N) :
  Forall (fun b => (b < 256)%N) bytes ->
  JS.scan (list_ascii_of_string (percentEncode bytes)) = Some (map escapeOf bytes).
Proof.
  induction 1 as [|b r Hb _ IH]; [reflexivity|].
  cbn [percentEncode list_ascii_of_string JS.scan map].
  change (Ascii.eqb "%" "%") with true. cbv iota.
  rewrite (hexval_hexdigit (b / 16)) by div_lia.
  rewrite (hexval_hexdigit (b mod 16)) by div_lia.
  rewrite IH. unfold escapeOf. do 3 f_equal. div_lia.
Qed.

Lemma decode_escapes (bytes : list N) :
  Forall (fun b => (b < 128)%N /\ JS.is_reserved b = false) bytes ->
  JS.decode (map escapeOf bytes) = Some bytes.
Proof.
  induction 1 as [|b r [Hb Hres] _ IH]; [reflexivity|].
  cbn [map escapeOf JS.decode].
  apply N.ltb_lt in Hb. rewrite Hb, Hres, IH. reflexivity.
Qed.

(** [decodeURI] undoes [percentEncode] on 7-bit bytes outside the reserved
    set. *)
Lemma decodeURI_percentEncode (bytes : list N) :
  Forall (fun b => (b < 128)%N /\ JS.is_reserved b = false) bytes ->
  JS.decodeURI (percentEncode bytes) = Some bytes.
Proof.
  intros H. unfold JS.decodeURI.
  rewrite scan_percentEncode.
  - now apply decode_escapes.
  - eapply Forall_impl; [|exact H]. intros b [Hb _]. lia.
Qed.

(** ** The binary codec: the round trip *)

Lemma lacks_of_list (sep : ascii) (l : list ascii) :
  Forall (fun c => Ascii.eqb c sep = false) l ->
  lacks sep (string_of_list_ascii l) = true.
Proof.
  induction 1 as [|c l Hc _ IH]; simpl; [reflexivity|].
  now rewrite Hc, IH.
Qed.

Lemma lacks_btoa (bytes : list N) :
  Forall (fun b => (b < 256)%N) bytes ->
  lacks "," (string_of_list_ascii (btoa bytes)) = true.
Proof.
  intros Hb. apply lacks_of_list. rewrite btoa_unpadded. apply Forall_app. split.
  - eapply Forall_impl; [|exact (b64chars_plain _ (unpadded_bound bytes Hb))].
    now intros c (_ & _ & H).
  - destruct (padding_cases bytes) as [-> | [-> | ->]]; repeat constructor.
Qed.

Lemma includes_suffix (needle a s : string) :
  JS.includes needle s = true -> JS.includes needle (a ++ s) = true.
Proof.
  intros H. induction a as [|x a IH]; [exact H|].
  cbn [append JS.includes]. rewrite IH. apply orb_true_r.
Qed.

Lemma toUint8Array_bytes (bytes : list N) :
  Forall (fun b => (b < 256)%N) bytes -> toUint8Array bytes = bytes.
Proof.
  induction 1 as [|b r Hb _ IH]; [reflexivity|].
  cbn [toUint8Array map]. fold (toUint8Array r).
  now rewrite IH, N.mod_small.
Qed.

Lemma blobType_kept (t : string) : typeKept t = true -> JS.blobType t = t.
Proof.
  intros H. unfold JS.blobType.
  assert (Hp : JS.all_printable t = true /\ JS.ascii_lowercase t = t).
  { induction t as [|c r IH]; [now split|].
    cbn [typeKept] in H. apply andb_true_iff in H. destruct H as [H Hr].
    apply andb_true_iff in H. destruct H as [Hc Hu].
    destruct (IH Hr) as [IH1 IH2]. cbn [JS.all_printable JS.ascii_lowercase].
    rewrite Hc, IH1, IH2. split; [reflexivity|].
    unfold JS.to_ascii_lowercase. apply negb_true_iff in Hu. now rewrite Hu. }
  destruct Hp as [-> ->]. reflexivity.
Qed.

(** Lower-casing turns no character into ",", ":" or ";". *)
Lemma to_ascii_lowercase_separator (x : ascii) :
  Ascii.eqb (JS.to_ascii_lowercase x) "," = Ascii.eqb x ","
  /\ Ascii.eqb (JS.to_ascii_lowercase x) ":" = Ascii.eqb x ":"
  /\ Ascii.eqb (JS.to_ascii_lowercase x) ";" = Ascii.eqb x ";".
Proof.
  assert (H : forallb (fun n =>
                let x := ascii_of_N n in
                Bool.eqb (Ascii.eqb (JS.to_ascii_lowercase x) ",") (Ascii.eqb x ",")
                && Bool.eqb (Ascii.eqb (JS.to_ascii_lowercase x) ":") (Ascii.eqb x ":")
                && Bool.eqb (Ascii.eqb (JS.to_ascii_lowercase x) ";") (Ascii.eqb x ";"))
              (map N.of_nat (seq 0 256)) = true) by (vm_compute; reflexivity).
  rewrite forallb_forall in H.
  specialize (H (N_of_ascii x) (in_below 256 _ (N_ascii_bounded x))).
  cbv zeta in H. rewrite ascii_N_embedding in H.
  apply andb_true_iff in H. destruct H as [H H3].
  apply andb_true_iff in H. destruct H as [H1 H2].
  apply Bool.eqb_prop in H1, H2, H3. now repeat split.
Qed.

Lemma lacks_blobType (c : ascii) (t : string) :
  (forall x, Ascii.eqb (JS.to_ascii_lowercase x) c = Ascii.eqb x c) ->
  lacks c t = true -> lacks c (JS.blobType t) = true.
Proof.
  intros Hc Ht. unfold JS.blobType.
  destruct (JS.all_printable t); [|reflexivity].
  induction t as [|x r IH]; [reflexivity|].
  cbn [lacks JS.ascii_lowercase] in *.
  apply andb_true_iff in Ht. destruct Ht as [Hx Hr].
  now rewrite Hc, Hx, (IH Hr).
Qed.

(** "base64" cannot begin inside the prefix "data:". *)
Lemma includes_data_prefix (mime : string) :
  JS.includes "base64" ("data:" ++ mime) = JS.includes "base64" mime.
Proof. reflexivity. Qed.

(** Reading the MIME type back from a header "data:<mime><suffix>". *)
Lemma header_mime (mime suffix : string) :
  lacks ":" (mime ++ suffix) = true ->
  beforeFirst ";" (mime ++ suffix) = mime ->
  JS.index (JS.split ":" ("data:" ++ mime ++ suffix)) 1 = Some (mime ++ suffix)
  /\ hd EmptyString (JS.split ";" (mime ++ suffix)) = mime.
Proof.
  intros Hcolon Hsemi. split.
  - change ("data:" ++ mime ++ suffix) with ("data" ++ String ":" (mime ++ suffix)).
    rewrite split_second, afterFirst_app by reflexivity.
    cbn [option_map]. now rewrite beforeFirst_lacks.
  - now rewrite split_head.
Qed.

(** What the codec yields on some built Data-URIs.  With a percent-encoded
    payload the byte 255 makes [decodeURI] throw, the octets C3 BF are
    merged into the single byte 255, and the byte 44 (a comma) comes back
    as the three characters of its escape.  A MIME type with a parameter is
    cut at the ";", and one that contains "base64" sends a percent-encoded
    payload to [atob].  A comma left unescaped ends the payload. *)
Example dataUriToBlob_samples :
  _dataUriToBlob (percentDataUri "image/png" [255]%N) = None
  /\ _dataUriToBlob (percentDataUri "image/png" [195; 191]%N)
     = Some (_createBlob [255]%N "image/png")
  /\ _dataUriToBlob (percentDataUri "image/png" [44]%N)
     = Some (_createBlob [37; 50; 67]%N "image/png")
  /\ _dataUriToBlob (base64DataUri "text/plain;charset=utf-8" [104; 105]%N)
     = Some (_createBlob [104; 105]%N "text/plain")
  /\ _dataUriToBlob (percentDataUri "application/base64" [104; 105]%N) = None
  /\ _dataUriToBlob "data:image/png,," = Some (_createBlob [] "image/png").
Proof. repeat split. Qed.

(** The tag of the blob is the MIME type as the blob stores it: an
    upper-case type comes back in lower case, and a type with a character
    outside printable ASCII comes back empty. *)
Example dataUriToBlob_type_samples :
  _dataUriToBlob (base64DataUri "IMAGE/JPEG" [255]%N)
  = Some (taggedBlob [255]%N "image/jpeg")
  /\ option_map blob_type
       (_dataUriToBlob (base64DataUri (String (ascii_of_N 9) "image/jpeg") [255]%N))
     = Some "".
Proof. repeat split. Qed.

(** C4, as stated, fails, on each of three inputs.  With the MIME type
    "image/png" the one-byte sequence 255 does not survive the
    percent-encoded round trip: [decodeURI] rejects the escape "%FF".
    With the MIME type "IMAGE/JPEG" the blob is tagged "image/jpeg", and
    with "text/plain;charset=utf-8" it is tagged "text/plain". *)
Lemma dataUri_roundtrip_fails :
  _dataUriToBlob (percentDataUri "image/png" [255]%N)
    <> Some (taggedBlob [255]%N "image/png")
  /\ _dataUriToBlob (base64DataUri "IMAGE/JPEG" [255]%N)
       <> Some (taggedBlob [255]%N "IMAGE/JPEG")
  /\ _dataUriToBlob (base64DataUri "text/plain;charset=utf-8" [104; 105]%N)
       <> Some (taggedBlob [104; 105]%N "text/plain;charset=utf-8").
Proof.
  split; [|split]; vm_compute; discriminate.
Qed.

(** C4, amended: for every byte sequence with values in 0..255 and every
    MIME type that is printable ASCII without upper-case letters and free
    of ",", ":" and ";", the base64 Data-URI built from them decodes to a
    blob with exactly those bytes and that MIME type; the percent-encoded
    Data-URI does so when, in addition, the MIME type does not contain
    "base64" and every byte is a 7-bit value outside the reserved set
    ";/?:@&=+$,#". *)
Theorem dataUri_roundtrip (mime : string) (bytes : list N) :
  Forall (fun b => (b < 256)%N) bytes ->
  typeKept mime = true ->
  lacks "," mime = true -> lacks ":" mime = true -> lacks ";" mime = true ->
  _dataUriToBlob (base64DataUri mime bytes) = Some (taggedBlob bytes mime)
  /\ (JS.includes "base64" mime = false ->
      Forall (fun b => (b < 128)%N /\ JS.is_reserved b = false) bytes ->
      _dataUriToBlob (percentDataUri mime bytes) = Some (taggedBlob bytes mime)).
Proof.
  intros Hb Hkept Hcomma Hcolon Hsemi.
  assert (Hblob : _createBlob bytes mime = taggedBlob bytes mime).
  { unfold _createBlob, taggedBlob. now rewrite (blobType_kept mime Hkept). }
  split.
  - assert (Huri : base64DataUri mime bytes
                   = ("data:" ++ mime ++ ";base64")
                       ++ String "," (string_of_list_ascii (btoa bytes))).
    { unfold base64DataUri. now rewrite !append_assoc. }
    assert (Hh : lacks "," ("data:" ++ mime ++ ";base64") = true)
      by now rewrite !lacks_app, Hcomma.
    destruct (split_comma_parts _ (string_of_list_ascii (btoa bytes)) Hh) as [H0 H1].
    destruct (header_mime mime ";base64") as [Hm1 Hm2].
    { now rewrite lacks_app, Hcolon. }
    { now apply beforeFirst_app. }
    unfold _dataUriToBlob. rewrite Huri, H0, H1.
    rewrite (beforeFirst_lacks _ _ (lacks_btoa bytes Hb)).
    replace (JS.includes "base64" ("data:" ++ mime ++ ";base64")) with true.
    2:{ symmetry. rewrite <- (append_assoc "data:" mime).
        now apply includes_suffix. }
    cbn [JS.to_string]. rewrite (atob_btoa bytes Hb), Hm1, Hm2.
    now rewrite toUint8Array_bytes, Hblob.
  - intros Hnob64 Hgood.
    rewrite <- (includes_data_prefix mime) in Hnob64.
    assert (Hh : lacks "," ("data:" ++ mime) = true)
      by now rewrite lacks_app, Hcomma.
    destruct (split_comma_parts _ (percentEncode bytes) Hh) as [H0 H1].
    destruct (header_mime mime "") as [Hm1 Hm2].
    { now rewrite append_empty_r. }
    { rewrite append_empty_r. now apply beforeFirst_lacks. }
    rewrite append_empty_r in Hm1, Hm2.
    unfold _dataUriToBlob, percentDataUri.
    change ("data:" ++ mime ++ "," ++ percentEncode bytes)
      with (("data:" ++ mime) ++ String "," (percentEncode bytes)).
    rewrite H0, H1, Hnob64.
    rewrite (beforeFirst_lacks _ _ (lacks_percentEncode bytes Hb)).
    cbn [JS.to_string]. rewrite (decodeURI_percentEncode bytes Hgood), Hm1, Hm2.
    now rewrite toUint8Array_bytes, Hblob.
Qed.

Lemma dataUri_roundtrip_witness :
  _dataUriToBlob (base64DataUri "image/jpeg" [74; 70; 73; 70; 0; 1; 127]%N)
  = Some (taggedBlob [74; 70; 73; 70; 0; 1; 127]%N "image/jpeg")
  /\ _dataUriToBlob (percentDataUri "image/jpeg" [74; 70; 73; 70; 0; 1; 127]%N)
     = Some (taggedBlob [74; 70; 73; 70; 0; 1; 127]%N "image/jpeg").
Proof.
  destruct (dataUri_roundtrip "image/jpeg" [74; 70; 73; 70; 0; 1; 127]%N)
    as [Hbase64 Hpercent];
    [repeat constructor | reflexivity | reflexivity | reflexivity | reflexivity |].
  split; [exact Hbase64|].
  apply Hpercent; [reflexivity|].
  repeat constructor.
Defined.

(** ** Further properties: size ordering and the constructor *)

(** The comparator of [_getSortedSizes] is a consistent comparison
    function: swapping the arguments negates the result, and its sign is
    the sign of the difference of the two [maxSize] values. *)
Theorem compareSizes_consistent (a b : SizeRecord) :
  compareSizes b a = - compareSizes a b
  /\ (compareSizes a b < 0 <-> maxSize a < maxSize b)
  /\ (compareSizes a b = 0 <-> maxSize a = maxSize b)
  /\ (compareSizes a b > 0 <-> maxSize a > maxSize b).
Proof.
  unfold compareSizes. rewrite !Z.gtb_ltb.
  destruct (Z.ltb_spec (maxSize b) (maxSize a));
    destruct (Z.ltb_spec (maxSize a) (maxSize b)); repeat split; lia.
Qed.

(** X1: [_getSortedSizes] keeps every size record, with its name and type,
    exactly once, and returns them by non-decreasing [maxSize]. *)
Theorem getSortedSizes_ascending_permutation (sizes : list SizeRecord) :
  Permutation (_getSortedSizes sizes) sizes
  /\ StronglySorted (fun a b => maxSize a <= maxSize b) (_getSortedSizes sizes)
  /\ List.length (_getSortedSizes sizes) = List.length sizes.
Proof.
  split; [apply getSortedSizes_perm|]. split.
  - apply (sort_sorted compareSizes maxSize compareSizes_key).
  - apply Permutation_length, getSortedSizes_perm.
Qed.

(** X3: The scaler is enabled exactly when the platform previews images and at
    least one size is configured. *)
Theorem enabled_iff (P : Platform) (spec : ScalerSpec) :
  enabled (new_Scaler P spec) = true
  <-> imagePreviews P = true /\ sizes spec <> [].
Proof.
  cbn [new_Scaler enabled].
  rewrite (Permutation_length (getSortedSizes_perm (sizes spec))).
  rewrite andb_true_iff, Z.ltb_lt.
  destruct (sizes spec) as [|s r]; simpl List.length.
  - split; [intros [_ H]; lia | intros [_ H]; now contradiction H].
  - split; intros [H _]; (split; [exact H|]); [discriminate | lia].
Qed.

(** ** Further properties: the orchestrator *)

Section OrchestratorMore.
Variable P : Platform.
Variable self : Scaler.
Variables (originalFileName : string) (originalBlob : Blob).

Lemma scaledRecords_length (l : list SizeRecord) (ids : nat) :
  List.length (scaledRecords P self originalFileName originalBlob ids l) = List.length l.
Proof.
  revert ids. induction l as [|s r IH]; intros ids; simpl; [reflexivity|].
  now rewrite IH.
Qed.

Lemma scaledRecords_uuid (l : list SizeRecord) (ids : nat) :
  map uuid (scaledRecords P self originalFileName originalBlob ids l)
  = map (uniqueId P) (seq ids (List.length l)).
Proof.
  revert ids. induction l as [|s r IH]; intros ids; simpl; [reflexivity|].
  now rewrite IH.
Qed.

Lemma scaledRecords_type (l : list SizeRecord) (ids : nat) :
  map variantType (scaledRecords P self originalFileName originalBlob ids l)
  = map (fun s => Some (_determineOutputType P (type s) (sc_defaultType self)
                          (Some (blob_type originalBlob)))) l.
Proof.
  revert ids. induction l as [|s r IH]; intros ids; simpl; [reflexivity|].
  now rewrite IH.
Qed.

Lemma getFileRecords_snd (ids : nat) (originalFileUuid : string)
    (src : BlobOrBlobData) :
  originalBlobOf src = originalBlob ->
  snd (getFileRecords P self ids originalFileUuid originalFileName src)
  = (ids + (if isPreviewableSync P originalBlob
            then List.length (sc_sizes self) else 0))%nat.
Proof.
  intros Hsrc. unfold getFileRecords. rewrite Hsrc.
  destruct (isPreviewableSync P originalBlob).
  - rewrite fold_pushScaledRecord. reflexivity.
  - simpl. lia.
Qed.
End OrchestratorMore.

(** [getFileRecords] returns one record per configured size when the
    reference is previewable, plus one for the original when
    [sendOriginal] is set. *)
Theorem getFileRecords_count
    (P : Platform) (spec : ScalerSpec) (ids : nat)
    (originalFileUuid originalFileName : string) (src : BlobOrBlobData) :
  List.length (fst (getFileRecords P (new_Scaler P spec) ids
                      originalFileUuid originalFileName src))
  = (variantCount P spec src + (if sendOriginal spec then 1 else 0))%nat.
Proof.
  rewrite (getFileRecords_unfold P _ originalFileName (originalBlobOf src) ids
             originalFileUuid src eq_refl).
  rewrite List.length_app. unfold variantCount.
  cbn [new_Scaler sc_sizes includeReference].
  f_equal.
  - destruct (isPreviewableSync P (originalBlobOf src)); [|reflexivity].
    rewrite scaledRecords_length.
    apply Permutation_length, getSortedSizes_perm.
  - destruct (sendOriginal spec); reflexivity.
Qed.

Lemma getFileRecords_uuid_list
    (P : Platform) (spec : ScalerSpec) (ids : nat)
    (originalFileUuid originalFileName : string) (src : BlobOrBlobData) :
  map uuid (fst (getFileRecords P (new_Scaler P spec) ids
                   originalFileUuid originalFileName src))
  = (map (uniqueId P) (seq ids (variantCount P spec src))
     ++ (if sendOriginal spec then [originalFileUuid] else []))%list.
Proof.
  rewrite (getFileRecords_unfold P _ originalFileName (originalBlobOf src) ids
             originalFileUuid src eq_refl).
  rewrite map_app. unfold variantCount. cbn [new_Scaler sc_sizes includeReference].
  f_equal.
  - destruct (isPreviewableSync P (originalBlobOf src)); [|reflexivity].
    rewrite scaledRecords_uuid.
    now rewrite (Permutation_length (getSortedSizes_perm (sizes spec))).
  - destruct (sendOriginal spec); reflexivity.
Qed.

Lemma getFileRecords_next_state
    (P : Platform) (spec : ScalerSpec) (ids : nat)
    (originalFileUuid originalFileName : string) (src : BlobOrBlobData) :
  snd (getFileRecords P (new_Scaler P spec) ids
         originalFileUuid originalFileName src)
  = (ids + variantCount P spec src)%nat.
Proof.
  rewrite (getFileRecords_snd P _ originalFileName (originalBlobOf src) ids
             originalFileUuid src eq_refl).
  unfold variantCount. cbn [new_Scaler sc_sizes].
  now rewrite (Permutation_length (getSortedSizes_perm (sizes spec))).
Qed.

(** X4: The size-derived records carry, in order, the identifiers the allocator
    hands out from its current state on, the original keeps the identifier
    passed in, and the allocator is advanced by exactly the number of
    size-derived records. *)
Theorem getFileRecords_identifiers
    (P : Platform) (spec : ScalerSpec) (ids : nat)
    (originalFileUuid originalFileName : string) (src : BlobOrBlobData) :
  map uuid (fst (getFileRecords P (new_Scaler P spec) ids
                   originalFileUuid originalFileName src))
  = (map (uniqueId P) (seq ids (variantCount P spec src))
     ++ (if sendOriginal spec then [originalFileUuid] else []))%list
  /\ snd (getFileRecords P (new_Scaler P spec) ids
            originalFileUuid originalFileName src)
     = (ids + variantCount P spec src)%nat.
Proof.
  split; [apply getFileRecords_uuid_list | apply getFileRecords_next_state].
Qed.

Lemma NoDup_map_injective {A B : Type} (f : A -> B) (l : list A) :
  (forall x y, f x = f y -> x = y) -> NoDup l -> NoDup (map f l).
Proof.
  intros Hinj. induction 1 as [|x l Hx _ IH]; simpl; constructor; [|exact IH].
  intros Hin. apply in_map_iff in Hin. destruct Hin as (y & Hy & Hin).
  apply Hinj in Hy. now subst y.
Qed.

(** X5: When the allocator never repeats an identifier and never hands out the
    identifier of the original, no two records of a call share an
    identifier. *)
Theorem getFileRecords_distinct_identifiers
    (P : Platform) (spec : ScalerSpec) (ids : nat)
    (originalFileUuid originalFileName : string) (src : BlobOrBlobData) :
  (forall i j, uniqueId P i = uniqueId P j -> i = j) ->
  (forall i, uniqueId P i <> originalFileUuid) ->
  NoDup (map uuid (fst (getFileRecords P (new_Scaler P spec) ids
                          originalFileUuid originalFileName src))).
Proof.
  intros Hinj Hfresh. rewrite getFileRecords_uuid_list.
  apply NoDup_app.
  - apply NoDup_map_injective; [exact Hinj | apply seq_NoDup].
  - destruct (sendOriginal spec); repeat constructor. intros [].
  - intros a Ha Hb. apply in_map_iff in Ha. destruct Ha as (i & <- & _).
    destruct (sendOriginal spec); [|contradiction].
    destruct Hb as [Hb | []]. now apply (Hfresh i).
Qed.

Lemma noTiffPlatform_uniqueId_length (n : nat) :
  String.length (uniqueId noTiffPlatform n) = S n.
Proof.
  cbn [uniqueId noTiffPlatform]. generalize (S n) as k.
  induction k as [|k IH]; simpl; [reflexivity | now rewrite IH].
Qed.

Lemma noTiffPlatform_uniqueId_injective (i j : nat) :
  uniqueId noTiffPlatform i = uniqueId noTiffPlatform j -> i = j.
Proof.
  intros H. apply (f_equal String.length) in H.
  rewrite !noTiffPlatform_uniqueId_length in H. lia.
Qed.

Lemma noTiffPlatform_uniqueId_fresh (i : nat) :
  uniqueId noTiffPlatform i <> "ref-uuid".
Proof. cbn. discriminate. Qed.

Lemma getFileRecords_distinct_identifiers_witness :
  NoDup (map uuid
           (fst (getFileRecords noTiffPlatform
                   (new_Scaler noTiffPlatform
                      (scenarioSpec true false 80 "Failed to scale"))
                   0 "ref-uuid" "photo.jpg" (IsBlob (photo []))))).
Proof.
  apply (getFileRecords_distinct_identifiers noTiffPlatform
           (scenarioSpec true false 80 "Failed to scale") 0 "ref-uuid" "photo.jpg"
           (IsBlob (photo []))).
  - exact noTiffPlatform_uniqueId_injective.
  - exact noTiffPlatform_uniqueId_fresh.
Defined.

Lemma getFileRecords_variantUuids
    (P : Platform) (spec : ScalerSpec) (ids : nat)
    (originalFileUuid originalFileName : string) (src : BlobOrBlobData) :
  variantUuids (fst (getFileRecords P (new_Scaler P spec) ids
                       originalFileUuid originalFileName src))
  = map (uniqueId P) (seq ids (variantCount P spec src)).
Proof.
  rewrite (getFileRecords_unfold P _ originalFileName (originalBlobOf src) ids
             originalFileUuid src eq_refl).
  unfold variantUuids, variantCount. rewrite filter_app, map_app.
  replace (map uuid (filter _ (if includeReference (new_Scaler P spec) then _ else _)))
    with (@nil string) by (destruct (includeReference _); reflexivity).
  rewrite app_nil_r.
  destruct (isPreviewableSync P (originalBlobOf src)); [|reflexivity].
  cbn [new_Scaler sc_sizes].
  rewrite <- (Permutation_length (getSortedSizes_perm (sizes spec))).
  rewrite <- (scaledRecords_uuid P (new_Scaler P spec) originalFileName
                (originalBlobOf src)).
  f_equal. generalize (_getSortedSizes (sizes spec)) as l. intros l. revert ids.
  induction l as [|s r IH]; intros ids; simpl; [reflexivity | now rewrite IH].
Qed.

(** X6: Calls that pass the allocator's state along draw from disjoint ranges:
    with an allocator that never repeats an identifier, the size-derived
    records of two successive calls, even for the same file, all carry
    different identifiers. *)
Theorem getFileRecords_successive_calls
    (P : Platform) (spec1 spec2 : ScalerSpec) (ids : nat)
    (uuid1 name1 uuid2 name2 : string) (src1 src2 : BlobOrBlobData) :
  (forall i j, uniqueId P i = uniqueId P j -> i = j) ->
  let first := getFileRecords P (new_Scaler P spec1) ids uuid1 name1 src1 in
  let second := getFileRecords P (new_Scaler P spec2) (snd first) uuid2 name2 src2 in
  NoDup (variantUuids (fst first) ++ variantUuids (fst second)).
Proof.
  intros Hinj first second. subst first second.
  rewrite !getFileRecords_variantUuids, getFileRecords_next_state.
  rewrite <- map_app, <- seq_app.
  apply NoDup_map_injective; [exact Hinj | apply seq_NoDup].
Qed.

Lemma getFileRecords_successive_calls_witness :
  NoDup (variantUuids
           (fst (getFileRecords noTiffPlatform
                   (new_Scaler noTiffPlatform (scenarioSpec true false 80 "Failed to scale"))
                   0 "ref-uuid" "photo.jpg" (IsBlob (photo []))))
         ++ variantUuids
              (fst (getFileRecords noTiffPlatform
                      (new_Scaler noTiffPlatform
                         (scenarioSpec true false 80 "Failed to scale"))
                      (snd (getFileRecords noTiffPlatform
                              (new_Scaler noTiffPlatform
                                 (scenarioSpec true false 80 "Failed to scale"))
                              0 "ref-uuid" "photo.jpg" (IsBlob (photo []))))
                      "ref-uuid" "photo.jpg" (IsBlob (photo []))))).
Proof.
  apply (getFileRecords_successive_calls noTiffPlatform
           (scenarioSpec true false 80 "Failed to scale")
           (scenarioSpec true false 80 "Failed to scale")
           0 "ref-uuid" "photo.jpg" "ref-uuid" "photo.jpg"
           (IsBlob (photo [])) (IsBlob (photo []))).
  exact noTiffPlatform_uniqueId_injective.
Defined.

(** X7: Without a default type and without a type on any size, every
    size-derived record is negotiated to one and the same type:
    "image/jpeg" for a JPEG reference and "image/png" for any other. *)
Theorem getFileRecords_default_types
    (P : Platform) (spec : ScalerSpec) (ids : nat)
    (originalFileUuid originalFileName : string) (src : BlobOrBlobData) :
  JS.truthy (defaultType spec) = false ->
  Forall (fun s => JS.truthy (type s) = false) (sizes spec) ->
  map variantType (fst (getFileRecords P (new_Scaler P spec) ids
                          originalFileUuid originalFileName src))
  = (repeat (Some (Some (if (blob_type (originalBlobOf src) =? "image/jpeg")%string
                         then "image/jpeg" else "image/png")))
            (variantCount P spec src)
     ++ (if sendOriginal spec then [None] else []))%list.
Proof.
  intros Hdef Hsizes.
  rewrite (getFileRecords_unfold P _ originalFileName (originalBlobOf src) ids
             originalFileUuid src eq_refl).
  rewrite map_app. unfold variantCount. cbn [new_Scaler sc_sizes includeReference].
  f_equal.
  - destruct (isPreviewableSync P (originalBlobOf src)); [|reflexivity].
    rewrite scaledRecords_type. cbn [new_Scaler sc_defaultType].
    rewrite <- (Permutation_length (getSortedSizes_perm (sizes spec))).
    rewrite <- map_const.
    apply map_ext_Forall.
    apply (Permutation_Forall (Permutation_sym (getSortedSizes_perm (sizes spec)))).
    eapply Forall_impl; [|exact Hsizes].
    intros s Hs. cbv beta. unfold _determineOutputType. rewrite Hdef, Hs.
    cbn [negb andb JS.strict_eq].
    destruct (String.eqb_spec (blob_type (originalBlobOf src)) "image/jpeg") as [->|];
      reflexivity.
  - destruct (sendOriginal spec); reflexivity.
Qed.

Lemma getFileRecords_default_types_witness :
  map variantType
    (fst (getFileRecords noTiffPlatform
            (new_Scaler noTiffPlatform (scenarioSpec true false 80 "Failed to scale"))
            0 "ref-uuid" "photo.jpg" (IsBlob (photo []))))
  = (repeat (Some (Some "image/jpeg")) 2 ++ [None])%list.
Proof.
  apply (getFileRecords_default_types noTiffPlatform
           (scenarioSpec true false 80 "Failed to scale") 0 "ref-uuid" "photo.jpg"
           (IsBlob (photo []))).
  - reflexivity.
  - repeat constructor.
Defined.

(** ** Further properties: the type negotiator *)

Lemma indexOf_found_In (arr : list string) (s : string) :
  qq.indexOf_found arr s = true <-> In s arr.
Proof.
  unfold qq.indexOf_found. rewrite existsb_exists. split.
  - intros (k & Hk & E). apply String.eqb_eq in E. now subst.
  - intros H. exists s. split; [exact H | apply String.eqb_refl].
Qed.

(** X10: A requested "image/tiff" on a platform without TIFF previews falls back
    to the default type, whatever the default and the reference type are
    (and to [undefined] when there is no default). *)
Theorem determineOutputType_tiff_falls_back
    (P : Platform) (defaultType referenceType : option string) :
  tiffPreviews P = false ->
  _determineOutputType P (Some "image/tiff") defaultType referenceType = defaultType.
Proof.
  intros Htiff. unfold _determineOutputType.
  cbn [JS.truthy JS.to_string JS.strict_eq String.eqb negb].
  rewrite andb_false_r. change ("image/tiff" =? "image/tiff")%string with true.
  cbn [negb]. rewrite Htiff.
  destruct (qq.indexOf_found _ _); reflexivity.
Qed.

Lemma determineOutputType_tiff_falls_back_witness :
  _determineOutputType noTiffPlatform (Some "image/tiff") (Some "image/png")
                       (Some "image/jpeg")
  = Some "image/png".
Proof.
  apply (determineOutputType_tiff_falls_back noTiffPlatform (Some "image/png")
           (Some "image/jpeg")).
  reflexivity.
Defined.

(** X11: A requested type from the table of previewable types is the answer,
    whatever the default and the reference type are, provided it is not
    "image/tiff" on a platform without TIFF previews. *)
Theorem determineOutputType_honours_request
    (P : Platform) (requested : string) (defaultType referenceType : option string) :
  In requested (PREVIEWABLE_MIME_TYPES P) ->
  requested <> "" ->
  (requested = "image/tiff" -> tiffPreviews P = true) ->
  _determineOutputType P (Some requested) defaultType referenceType = Some requested.
Proof.
  intros Hin Hne Htiff. unfold _determineOutputType.
  assert (Ht : JS.truthy (Some requested) = true).
  { simpl. destruct (String.eqb_spec requested ""); [contradiction | reflexivity]. }
  rewrite Ht. cbn [negb JS.to_string]. rewrite andb_false_r.
  rewrite (proj2 (indexOf_found_In _ _) Hin).
  destruct (JS.strict_eq (Some requested) (Some "image/tiff")) eqn:E; [|reflexivity].
  apply strict_eq_Some in E. injection E as E. now rewrite (Htiff E).
Qed.

Lemma determineOutputType_honours_request_witness :
  _determineOutputType tiffPlatform (Some "image/tiff") (Some "image/png")
                       (Some "image/jpeg")
  = Some "image/tiff".
Proof.
  apply (determineOutputType_honours_request tiffPlatform "image/tiff"
           (Some "image/png") (Some "image/jpeg")).
  - simpl. tauto.
  - discriminate.
  - reflexivity.
Defined.

(** X12: The negotiator yields no usable type ([undefined] or the empty string)
    exactly when there is no default type and a type is requested that is
    either missing from the table of previewable types or "image/tiff" on
    a platform without TIFF previews. *)
Theorem determineOutputType_unusable_iff
    (P : Platform) (requestedType defaultType referenceType : option string) :
  JS.truthy (_determineOutputType P requestedType defaultType referenceType) = false
  <-> JS.truthy defaultType = false
      /\ JS.truthy requestedType = true
      /\ (qq.indexOf_found (PREVIEWABLE_MIME_TYPES P) (JS.to_string requestedType) = false
          \/ (requestedType = Some "image/tiff" /\ tiffPreviews P = false)).
Proof.
  unfold _determineOutputType.
  destruct (JS.truthy defaultType) eqn:Hd; destruct (JS.truthy requestedType) eqn:Hr;
    cbn [negb andb].
  - destruct (qq.indexOf_found _ _).
    + destruct (JS.strict_eq requestedType (Some "image/tiff"));
        [destruct (tiffPreviews P)|]; rewrite ?Hd, ?Hr;
        (split; [discriminate | intros (H & _); discriminate]).
    + rewrite Hd. split; [discriminate | intros (H & _); discriminate].
  - rewrite Hd. split; [discriminate | intros (H & _); discriminate].
  - destruct (qq.indexOf_found _ _) eqn:Hi.
    + destruct (JS.strict_eq requestedType (Some "image/tiff")) eqn:E.
      * apply strict_eq_Some in E.
        destruct (tiffPreviews P) eqn:Ht; rewrite ?Hd, ?Hr.
        -- split; [discriminate|]. intros (_ & _ & [H | [_ H]]); discriminate.
        -- split; [|reflexivity]. intros _. repeat split. now right.
      * rewrite Hr. split; [discriminate|].
        intros (_ & _ & [H | [H _]]); [discriminate|].
        apply strict_eq_Some in H. congruence.
    + rewrite Hd. split; [|reflexivity]. intros _. repeat split. now left.
  - split; [|intros (_ & H & _); discriminate].
    destruct (JS.strict_eq referenceType (Some "image/jpeg")) eqn:E; cbn [negb].
    + apply strict_eq_Some in E. subst. discriminate.
    + discriminate.
Qed.

(** X13: The negotiator never invents a type: a result is "image/png",
    "image/jpeg", the default type, or a requested type that is listed in
    the table of previewable types. *)
Theorem determineOutputType_closed_world
    (P : Platform) (requestedType defaultType referenceType : option string)
    (t : string) :
  _determineOutputType P requestedType defaultType referenceType = Some t ->
  t = "image/png" \/ t = "image/jpeg" \/ defaultType = Some t
  \/ (requestedType = Some t /\ In t (PREVIEWABLE_MIME_TYPES P)).
Proof.
  unfold _determineOutputType.
  destruct (negb (JS.truthy defaultType) && negb (JS.truthy requestedType)).
  - destruct (JS.strict_eq referenceType (Some "image/jpeg")) eqn:E; cbn [negb].
    + apply strict_eq_Some in E. subst. intros [= <-]. auto.
    + intros [= <-]. auto.
  - destruct (negb (JS.truthy requestedType)); [auto|].
    destruct (qq.indexOf_found _ _) eqn:Hi; [|auto].
    apply indexOf_found_In in Hi.
    assert (Hreq : requestedType = Some t ->
                   requestedType = Some t /\ In t (PREVIEWABLE_MIME_TYPES P)).
    { intros H. split; [exact H|]. now rewrite H in Hi. }
    destruct (JS.strict_eq requestedType (Some "image/tiff"));
      [destruct (tiffPreviews P)|]; auto.
Qed.

Lemma determineOutputType_closed_world_witness :
  "image/gif" = "image/png" \/ "image/gif" = "image/jpeg"
  \/ Some "image/bmp" = Some "image/gif"
  \/ (Some "image/gif" = Some "image/gif"
      /\ In "image/gif" (PREVIEWABLE_MIME_TYPES noTiffPlatform)).
Proof.
  apply (determineOutputType_closed_world noTiffPlatform (Some "image/gif")
           (Some "image/bmp") (Some "image/jpeg") "image/gif").
  reflexivity.
Defined.

(** ** Further properties: the name deriver *)

Lemma append_cancel_l (a s1 s2 : string) : a ++ s1 = a ++ s2 -> s1 = s2.
Proof.
  induction a as [|x a IH]; simpl; [auto|]. intros [= H]. auto.
Qed.

Lemma append_cancel_r (s1 s2 t : string) : s1 ++ t = s2 ++ t -> s1 = s2.
Proof.
  revert s2. induction s1 as [|x s1 IH]; intros [|y s2] H; simpl in H.
  - reflexivity.
  - apply (f_equal String.length) in H. simpl in H. rewrite length_app in H. lia.
  - apply (f_equal String.length) in H. simpl in H. rewrite length_app in H. lia.
  - injection H as -> H. f_equal. now apply IH.
Qed.

(** Either a character does not occur in a string, or the string splits
    at its last occurrence. *)
Lemma lacks_or_split (c : ascii) (s : string) :
  lacks c s = true \/ exists a e, s = a ++ String c e /\ lacks c e = true.
Proof.
  induction s as [|x r [IH | (a & e & -> & He)]].
  - now left.
  - destruct (Ascii.eqb_spec x c) as [->|Hx].
    + right. exists EmptyString, r. now split.
    + left. simpl. rewrite IH. apply Ascii.eqb_neq in Hx. now rewrite Hx.
  - right. exists (String x a), e. now split.
Qed.

Lemma getName_dotless (X label : string) (ty refType : option string) :
  lacks "." X = true -> _getName X label ty refType = X ++ " (" ++ label ++ ")".
Proof.
  intros HX. unfold _getName. now rewrite (lastIndexOf_lacks _ _ HX).
Qed.

(** X14: A name without a "." gets the label appended and no extension,
    whatever the negotiated and the reference type are. *)
Theorem getName_without_extension (X label : string) (ty refType : option string) :
  lacks "." X = true ->
  _getName X label ty refType = X ++ " (" ++ label ++ ")"
  /\ qq.getExtension X = None.
Proof.
  intros HX. split; [now apply getName_dotless|].
  unfold qq.getExtension. now rewrite (lastIndexOf_lacks _ _ HX).
Qed.

Lemma getName_without_extension_witness :
  _getName "README" "small" (Some "image/png") (Some "image/jpeg") = "README" ++ " (" ++ "small" ++ ")"
  /\ qq.getExtension "README" = None.
Proof.
  apply (getName_without_extension "README" "small" (Some "image/png") (Some "image/jpeg")).
  reflexivity.
Defined.

(** X15: When the negotiated type "major/sub" differs from the reference type,
    the extension of the name is replaced by "sub". *)
Theorem getName_takes_subtype
    (base ext label major sub : string) (refType : option string) :
  lacks "." ext = true ->
  lacks "/" major = true ->
  lacks "/" sub = true ->
  refType <> Some (major ++ "/" ++ sub) ->
  _getName (base ++ "." ++ ext) label (Some (major ++ "/" ++ sub)) refType
  = base ++ " (" ++ label ++ ")" ++ "." ++ sub.
Proof.
  intros He Hmajor Hsub Href.
  change (base ++ "." ++ ext) with (base ++ String "." ext).
  rewrite (getName_dotted base ext label _ _ He).
  assert (Hor : JS.or_else (Some (major ++ "/" ++ sub)) "image/png" = major ++ "/" ++ sub).
  { simpl. destruct (String.eqb_spec (major ++ String "/" sub) "") as [E|]; [|reflexivity].
    destruct major; discriminate. }
  rewrite Hor.
  destruct (JS.strict_eq refType (Some (major ++ "/" ++ sub))) eqn:E.
  - apply strict_eq_Some in E. contradiction.
  - cbn [negb]. change (major ++ "/" ++ sub) with (major ++ String "/" sub).
    rewrite split_second, (afterFirst_app _ _ _ Hmajor). cbn [option_map JS.to_string].
    now rewrite (beforeFirst_lacks _ _ Hsub).
Qed.

Lemma getName_takes_subtype_witness :
  _getName ("photo" ++ "." ++ "jpg") "small" (Some ("image" ++ "/" ++ "png"))
           (Some "image/jpeg")
  = "photo" ++ " (" ++ "small" ++ ")" ++ "." ++ "png".
Proof.
  apply (getName_takes_subtype "photo" "jpg" "small" "image" "png" (Some "image/jpeg"));
    [reflexivity | reflexivity | reflexivity | discriminate].
Defined.

(** A negotiated type without a "/" has no subtype: when it differs from
    the reference type the name ends in ".undefined". *)
Theorem getName_type_without_slash
    (base ext label ty : string) (refType : option string) :
  lacks "." ext = true ->
  ty <> "" ->
  lacks "/" ty = true ->
  refType <> Some ty ->
  _getName (base ++ "." ++ ext) label (Some ty) refType
  = base ++ " (" ++ label ++ ")" ++ "." ++ "undefined".
Proof.
  intros He Hne Hty Href.
  change (base ++ "." ++ ext) with (base ++ String "." ext).
  rewrite (getName_dotted base ext label _ _ He).
  assert (Hor : JS.or_else (Some ty) "image/png" = ty).
  { simpl. destruct (String.eqb_spec ty ""); [contradiction | reflexivity]. }
  rewrite Hor.
  destruct (JS.strict_eq refType (Some ty)) eqn:E.
  - apply strict_eq_Some in E. contradiction.
  - cbn [negb]. now rewrite (split_lacks _ _ Hty).
Qed.

Lemma getName_type_without_slash_witness :
  _getName ("photo" ++ "." ++ "jpg") "small" (Some "png") (Some "image/jpeg")
  = "photo" ++ " (" ++ "small" ++ ")" ++ "." ++ "undefined".
Proof.
  apply (getName_type_without_slash "photo" "jpg" "small" "png" (Some "image/jpeg"));
    [reflexivity | discriminate | reflexivity | discriminate].
Defined.

(** The shape of every derived name: the text in front of the label and
    the text behind it depend on the original name and the two types, not
    on the label. *)
Lemma getName_shape (X : string) (ty refType : option string) :
  exists front back,
    (forall label, _getName X label ty refType = front ++ " (" ++ label ++ back)
    /\ (front = X \/ exists e, X = front ++ String "." e).
Proof.
  destruct (lacks_or_split "." X) as [HX | (a & e & -> & He)].
  - exists X, ")". split; [|now left].
    intros label. now apply getName_dotless.
  - eexists a, _. split; [|right; now exists e].
    intros label. rewrite (getName_dotted a e label ty refType He). reflexivity.
Qed.

(** X16: A derived name is never the original name, so a size-derived record
    cannot take the name of the original file. *)
Theorem getName_differs_from_original
    (X label : string) (ty refType : option string) :
  _getName X label ty refType <> X.
Proof.
  destruct (getName_shape X ty refType) as (front & back & Hshape & [HX | (e & HX)]);
    rewrite Hshape; intros H.
  - assert (H' : front ++ " (" ++ label ++ back = front ++ "")
      by (now rewrite append_empty_r, H).
    apply append_cancel_l in H'. discriminate.
  - rewrite HX in H. apply append_cancel_l in H. discriminate.
Qed.

(** For one original name and one pair of types, different labels give
    different names. *)
Theorem getName_injective_in_label
    (X label1 label2 : string) (ty refType : option string) :
  _getName X label1 ty refType = _getName X label2 ty refType -> label1 = label2.
Proof.
  destruct (getName_shape X ty refType) as (front & back & Hshape & _).
  rewrite !Hshape. intros H.
  apply append_cancel_l in H. apply (append_cancel_l " (") in H.
  now apply append_cancel_r in H.
Qed.

Lemma getName_injective_in_label_witness : "small" = "small".
Proof.
  apply (getName_injective_in_label "photo.jpg" "small" "small"
           (Some "image/jpeg") (Some "image/jpeg")).
  reflexivity.
Defined.

(** ** Further properties: the binary codec *)

Lemma lacks_beforeFirst_other (c sep : ascii) (s : string) :
  lacks c s = true -> lacks c (beforeFirst sep s) = true.
Proof.
  induction s as [|x r IH]; simpl; [reflexivity|].
  intros H. apply andb_true_iff in H. destruct H as [Hx Hr].
  destruct (Ascii.eqb x sep); simpl; [reflexivity|]. now rewrite Hx, IH.
Qed.

Lemma lacks_afterFirst (c sep : ascii) (s r : string) :
  lacks c s = true -> afterFirst sep s = Some r -> lacks c r = true.
Proof.
  induction s as [|x t IH]; simpl; [discriminate|].
  intros H. apply andb_true_iff in H. destruct H as [_ Ht].
  destruct (Ascii.eqb x sep); [now intros [= <-] | now apply IH].
Qed.

(** X17: A Data-URI whose header has no ":" makes the codec throw, whatever the
    payload is. *)
Theorem dataUriToBlob_header_without_colon (dataUri : string) :
  lacks ":" (beforeFirst "," dataUri) = true ->
  _dataUriToBlob dataUri = None.
Proof.
  intros H. unfold _dataUriToBlob. rewrite split_head, (split_lacks _ _ H).
  destruct (if JS.includes "base64" (beforeFirst "," dataUri) then _ else _); reflexivity.
Qed.

Lemma dataUriToBlob_header_without_colon_witness :
  _dataUriToBlob "image/png;base64,AQID" = None.
Proof.
  apply (dataUriToBlob_header_without_colon "image/png;base64,AQID"). reflexivity.
Defined.

(** X18: A Data-URI "data:<mime>" without any comma is not rejected as such:
    [split(",")[1]] is [undefined], which [decodeURI] turns into the text
    "undefined", so the blob holds those nine bytes, tagged with the MIME
    type as a blob stores it; only when the MIME type contains "base64"
    does the codec throw, in [atob]. *)
Theorem dataUriToBlob_without_comma (mime : string) :
  lacks "," mime = true -> lacks ":" mime = true -> lacks ";" mime = true ->
  _dataUriToBlob ("data:" ++ mime)
  = if JS.includes "base64" mime then None
    else Some (taggedBlob undefinedBytes (JS.blobType mime)).
Proof.
  intros Hcomma Hcolon Hsemi. unfold _dataUriToBlob.
  assert (Hh : lacks "," ("data:" ++ mime) = true) by now rewrite lacks_app, Hcomma.
  rewrite (split_lacks _ _ Hh). cbn [hd].
  change (JS.index ["data:" ++ mime] 1) with (@None string). cbn [JS.to_string].
  rewrite includes_data_prefix.
  destruct (JS.includes "base64" mime); [reflexivity|].
  destruct (header_mime mime "") as [Hm1 Hm2].
  { now rewrite append_empty_r. }
  { rewrite append_empty_r. now apply beforeFirst_lacks. }
  rewrite append_empty_r in Hm1, Hm2.
  change (JS.decodeURI "undefined") with (Some undefinedBytes).
  cbv iota. now rewrite Hm1, Hm2.
Qed.

Lemma dataUriToBlob_without_comma_witness :
  _dataUriToBlob ("data:" ++ "Text/Plain")
  = if JS.includes "base64" "Text/Plain" then None
    else Some (taggedBlob undefinedBytes "text/plain").
Proof.
  apply (dataUriToBlob_without_comma "Text/Plain"); reflexivity.
Defined.

(** X19: Whatever the codec returns is well formed: every byte is below 256,
    the MIME tag holds no ",", ":" or ";", and the blob has no name. *)
Theorem dataUriToBlob_output_wellformed (dataUri : string) (b : Blob) :
  _dataUriToBlob dataUri = Some b ->
  Forall (fun x => (x < 256)%N) (blob_bytes b)
  /\ lacks "," (blob_type b) = true
  /\ lacks ":" (blob_type b) = true
  /\ lacks ";" (blob_type b) = true
  /\ blob_name b = None.
Proof.
  unfold _dataUriToBlob. rewrite split_head.
  destruct (if JS.includes "base64" (beforeFirst "," dataUri) then _ else _)
    as [byteString|]; [|discriminate].
  rewrite split_second.
  destruct (afterFirst ":" (beforeFirst "," dataUri)) as [r|] eqn:Hr; [|discriminate].
  cbn [option_map]. rewrite split_head. intros [= <-]. cbn [_createBlob blob_bytes blob_type blob_name].
  assert (Hc : lacks "," r = true)
    by (eapply lacks_afterFirst; [apply lacks_beforeFirst | exact Hr]).
  repeat split.
  - unfold toUint8Array. apply Forall_map, Forall_forall. intros x _.
    apply N.mod_lt. discriminate.
  - apply lacks_blobType; [intros x; apply to_ascii_lowercase_separator|].
    now do 2 apply lacks_beforeFirst_other.
  - apply lacks_blobType; [intros x; apply to_ascii_lowercase_separator|].
    apply lacks_beforeFirst_other, lacks_beforeFirst.
  - apply lacks_blobType; [intros x; apply to_ascii_lowercase_separator|].
    apply lacks_beforeFirst.
Qed.

Lemma dataUriToBlob_output_wellformed_witness :
  Forall (fun x => (x < 256)%N) (blob_bytes (_createBlob [255; 216; 255]%N "image/jpeg"))
  /\ lacks "," (blob_type (_createBlob [255; 216; 255]%N "image/jpeg")) = true
  /\ lacks ":" (blob_type (_createBlob [255; 216; 255]%N "image/jpeg")) = true
  /\ lacks ";" (blob_type (_createBlob [255; 216; 255]%N "image/jpeg")) = true
  /\ blob_name (_createBlob [255; 216; 255]%N "image/jpeg") = None.
Proof.
  apply (dataUriToBlob_output_wellformed tinyJpegUri). reflexivity.
Defined.

(** The two branches of the codec on a Data-URI "data:<mime><suffix>,<payload>"
    whose payload holds no comma. *)
Lemma dataUriToBlob_parts (mime suffix payload : string) :
  lacks "," (mime ++ suffix) = true ->
  lacks ":" (mime ++ suffix) = true ->
  beforeFirst ";" (mime ++ suffix) = mime ->
  lacks "," payload = true ->
  _dataUriToBlob ("data:" ++ (mime ++ suffix) ++ "," ++ payload)
  = option_map (fun byteString => _createBlob (toUint8Array byteString) mime)
      (if JS.includes "base64" (mime ++ suffix)
       then JS.atob payload else JS.decodeURI payload).
Proof.
  intros Hcomma Hcolon Hsemi Hp.
  assert (Hh : lacks "," ("data:" ++ mime ++ suffix) = true)
    by now rewrite lacks_app, Hcomma.
  destruct (split_comma_parts _ payload Hh) as [H0 H1].
  destruct (header_mime mime suffix Hcolon Hsemi) as [Hm1 Hm2].
  unfold _dataUriToBlob.
  change ("data:" ++ (mime ++ suffix) ++ "," ++ payload)
    with (("data:" ++ mime ++ suffix) ++ String "," payload).
  rewrite H0, H1, (beforeFirst_lacks _ _ Hp), includes_data_prefix.
  cbn [JS.to_string].
  destruct (if JS.includes "base64" (mime ++ suffix) then _ else _); [|reflexivity].
  cbn [option_map]. now rewrite Hm1, Hm2.
Qed.

(** X20: Parameters between the MIME type and the ";base64" marker are dropped:
    the blob holds the encoded bytes and is tagged with the bare MIME
    type as a blob stores it, in lower case, and empty when it has a
    character outside printable ASCII. *)
Theorem dataUriToBlob_drops_parameters (mime params : string) (bytes : list N) :
  Forall (fun b => (b < 256)%N) bytes ->
  lacks "," mime = true -> lacks ":" mime = true -> lacks ";" mime = true ->
  lacks "," params = true -> lacks ":" params = true ->
  _dataUriToBlob ("data:" ++ (mime ++ ";" ++ params ++ ";base64") ++ ","
                  ++ string_of_list_ascii (btoa bytes))
  = Some (taggedBlob bytes (JS.blobType mime)).
Proof.
  intros Hb Hcomma Hcolon Hsemi Hpc Hpk.
  rewrite dataUriToBlob_parts.
  - replace (JS.includes "base64" (mime ++ ";" ++ params ++ ";base64")) with true.
    2:{ symmetry. rewrite <- (append_assoc ";" params), <- append_assoc.
        now apply includes_suffix. }
    rewrite (atob_btoa bytes Hb). cbn [option_map].
    now rewrite toUint8Array_bytes.
  - now rewrite !lacks_app, Hcomma, Hpc.
  - now rewrite !lacks_app, Hcolon, Hpk.
  - now apply beforeFirst_app.
  - now apply lacks_btoa.
Qed.

Lemma dataUriToBlob_drops_parameters_witness :
  _dataUriToBlob ("data:" ++ ("Text/Plain" ++ ";" ++ "charset=utf-8" ++ ";base64") ++ ","
                  ++ string_of_list_ascii (btoa [104; 105]%N))
  = Some (taggedBlob [104; 105]%N "text/plain").
Proof.
  apply (dataUriToBlob_drops_parameters "Text/Plain" "charset=utf-8" [104; 105]%N);
    [repeat constructor | reflexivity | reflexivity | reflexivity
     | reflexivity | reflexivity].
Defined.






(** X22: A percent-encoded two-octet UTF-8 sequence is decoded to one character,
    of which only the low eight bits reach the blob: the code point V,
    written as the escapes of 192 + V / 64 and 128 + V mod 64, yields the
    single byte V mod 256, under the MIME type as a blob stores it. *)
Theorem dataUriToBlob_two_octet_sequence (mime : string) (V : N) :
  lacks "," mime = true -> lacks ":" mime = true -> lacks ";" mime = true ->
  JS.includes "base64" mime = false ->
  (128 <= V < 2048)%N ->
  _dataUriToBlob (percentDataUri mime [192 + V / 64; 128 + V mod 64]%N)
  = Some (taggedBlob [V mod 256]%N (JS.blobType mime)).
Proof.
  intros Hcomma Hcolon Hsemi Hb64 HV.
  assert (Hbytes : Forall (fun b => (b < 256)%N) [192 + V / 64; 128 + V mod 64]%N)
    by (repeat constructor; div_lia).
  pose proof (dataUriToBlob_parts mime "" (percentEncode [192 + V / 64; 128 + V mod 64]%N))
    as H.
  rewrite append_empty_r in H. unfold percentDataUri.
  rewrite H by first [assumption | now apply beforeFirst_lacks
                      | now apply lacks_percentEncode].
  rewrite Hb64. unfold JS.decodeURI. rewrite (scan_percentEncode _ Hbytes).
  cbn [map escapeOf JS.decode].
  assert (H1 : (192 + V / 64 <? 128)%N = false) by (apply N.ltb_ge; div_lia).
  assert (H2 : ((192 <=? 192 + V / 64) && (192 + V / 64 <? 224))%N = true).
  { apply andb_true_iff. split; [apply N.leb_le | apply N.ltb_lt]; div_lia. }
  assert (H3 : JS.is_continuation (128 + V mod 64) = true).
  { apply andb_true_iff. split; [apply N.leb_le | apply N.ltb_lt]; div_lia. }
  assert (H4 : ((192 + V / 64 - 192) * 64 + (128 + V mod 64 - 128) = V)%N) by div_lia.
  assert (H5 : JS.valid_code_point 128 V = true).
  { unfold JS.valid_code_point. rewrite !andb_true_iff, negb_true_iff, andb_false_iff.
    repeat split; [apply N.leb_le; lia | apply N.leb_le; lia|].
    left. apply N.leb_gt. lia. }
  assert (H6 : JS.code_units V = [V]).
  { unfold JS.code_units. replace (V <? 65536)%N with true; [reflexivity|].
    symmetry. apply N.ltb_lt. lia. }
  rewrite H1, H2, H4, H3, H5, H6. reflexivity.
Qed.

Lemma dataUriToBlob_two_octet_sequence_witness :
  _dataUriToBlob (percentDataUri "Text/Plain" [192 + 300 / 64; 128 + 300 mod 64]%N)
  = Some (taggedBlob [300 mod 256]%N "text/plain").
Proof.
  apply (dataUriToBlob_two_octet_sequence "Text/Plain" 300%N);
    [reflexivity | reflexivity | reflexivity | reflexivity | lia].
Defined.

(** ** Further properties: the derivative generator *)

(** X23: Off the EXIF path a rendered variant resolves with the blob decoded
    from the canvas' Data-URI and logs the attempt and the success; the
    reader and the EXIF restorer play no part. *)
Theorem generateScaledImage_without_exif
    (W : Collaborators) (spec : GenSpec) (sourceFile rendered : Blob) :
  generate W sourceFile (gen_maxSize spec) (gen_orient spec) = true ->
  takesExifPath spec sourceFile = false ->
  _dataUriToBlob (renderedDataUri W spec sourceFile) = Some rendered ->
  _generateScaledImage W spec sourceFile
  = (Success rendered, [attemptEntry sourceFile; successEntry sourceFile]).
Proof.
  intros Hgen Hexif Hblob.
  unfold _generateScaledImage. fold (takesExifPath spec sourceFile).
  fold (renderedDataUri W spec sourceFile).
  rewrite Hgen, Hexif. unfold signalSuccess. rewrite Hblob. reflexivity.
Qed.

Lemma generateScaledImage_without_exif_witness :
  _generateScaledImage restoreThrows pngGen (photo [255; 216; 255]%N)
  = (Success (_createBlob [255; 216; 255]%N "image/jpeg"),
     [attemptEntry (photo [255; 216; 255]%N); successEntry (photo [255; 216; 255]%N)]).
Proof.
  apply (generateScaledImage_without_exif restoreThrows pngGen (photo [255; 216; 255]%N));
    reflexivity.
Defined.

(** X24: On the EXIF path, when the original is read and the restorer returns,
    the variant resolves with the blob decoded from the restorer's
    Data-URI, not from the canvas' one. *)
Theorem generateScaledImage_with_exif
    (W : Collaborators) (spec : GenSpec) (sourceFile : Blob)
    (original merged : string) (withExif : Blob) :
  generate W sourceFile (gen_maxSize spec) (gen_orient spec) = true ->
  takesExifPath spec sourceFile = true ->
  readAsDataURL W sourceFile = Some original ->
  restore W original (renderedDataUri W spec sourceFile) = Some merged ->
  _dataUriToBlob merged = Some withExif ->
  _generateScaledImage W spec sourceFile
  = (Success withExif, [attemptEntry sourceFile; successEntry sourceFile]).
Proof.
  intros Hgen Hexif Hread Hrestore Hblob.
  unfold _generateScaledImage. fold (takesExifPath spec sourceFile).
  fold (renderedDataUri W spec sourceFile).
  rewrite Hgen, Hexif. unfold _insertExifHeader, signalSuccess.
  rewrite Hread, Hrestore. cbn [bind ret log]. rewrite Hblob. reflexivity.
Qed.

Lemma generateScaledImage_with_exif_witness :
  _generateScaledImage allSucceed exifGen (photo [255; 216; 255]%N)
  = (Success (_createBlob [255; 216; 255; 225]%N "image/jpeg"),
     [attemptEntry (photo [255; 216; 255]%N); successEntry (photo [255; 216; 255]%N)]).
Proof.
  apply (generateScaledImage_with_exif allSucceed exifGen (photo [255; 216; 255]%N)
           tinyJpegUri "data:image/jpeg;base64,/9j/4Q==");
    reflexivity.
Defined.

Lemma exif_read_failure_resolves_witness :
  _generateScaledImage readFails exifGen (photo [255; 216; 255]%N)
  = (Success (_createBlob [255; 216; 255]%N "image/jpeg"),
     [attemptEntry (photo [255; 216; 255]%N); readFailedEntry (photo [255; 216; 255]%N);
      insertFailedEntry; successEntry (photo [255; 216; 255]%N)]).
Proof.
  apply (exif_read_failure_resolves readFails exifGen (photo [255; 216; 255]%N));
    reflexivity.
Defined.

(** X26: The promise of a variant is rejected exactly when the rendering engine
    fails, and the reason is then the configured failure text. *)
Theorem generateScaledImage_rejected_iff
    (W : Collaborators) (spec : GenSpec) (sourceFile : Blob) (reason : option string) :
  fst (_generateScaledImage W spec sourceFile) = Failure reason
  <-> generate W sourceFile (gen_maxSize spec) (gen_orient spec) = false
      /\ reason = Some (gen_failedText spec).
Proof.
  destruct (generate W sourceFile (gen_maxSize spec) (gen_orient spec)) eqn:Hgen.
  - split; [|intros [H _]; discriminate].
    intros H. now apply rendered_variant_never_rejected in H.
  - rewrite (generateScaledImage_render_failure W spec sourceFile Hgen). cbn [fst].
    split; [intros [= <-]; now split | intros [_ ->]; reflexivity].
Qed.

(** X27: EXIF preservation takes effect only when both the source and the
    output are JPEGs: otherwise a generator behaves as if it were switched
    off. *)
Theorem generateScaledImage_exif_needs_jpeg
    (W : Collaborators) (spec : GenSpec) (sourceFile : Blob) :
  blob_type sourceFile <> "image/jpeg" \/ gen_type spec <> Some "image/jpeg" ->
  _generateScaledImage W spec sourceFile
  = _generateScaledImage W (withoutExif spec) sourceFile.
Proof.
  intros H.
  assert (Hexif : takesExifPath spec sourceFile = false).
  { unfold takesExifPath. destruct H as [H | H].
    - apply String.eqb_neq in H. rewrite H. now rewrite andb_false_r.
    - destruct (JS.strict_eq (gen_type spec) (Some "image/jpeg")) eqn:E.
      + apply strict_eq_Some in E. contradiction.
      + now rewrite andb_false_r. }
  unfold _generateScaledImage. fold (takesExifPath spec sourceFile).
  rewrite Hexif. reflexivity.
Qed.

Lemma generateScaledImage_exif_needs_jpeg_witness :
  _generateScaledImage restoreThrows pngGen (photo [255; 216; 255]%N)
  = _generateScaledImage restoreThrows (withoutExif pngGen) (photo [255; 216; 255]%N).
Proof.
  apply (generateScaledImage_exif_needs_jpeg restoreThrows pngGen
           (photo [255; 216; 255]%N)).
  right. discriminate.
Defined.

(** X28: A promise is left unsettled only when an exception escaped a
    callback: the restorer threw on the EXIF path, or the Data-URI to
    encode, the canvas' or the restorer's, made the codec throw. *)
Theorem generateScaledImage_pending_only_after_exception
    (W : Collaborators) (spec : GenSpec) (sourceFile : Blob) :
  fst (_generateScaledImage W spec sourceFile) = Pending ->
  generate W sourceFile (gen_maxSize spec) (gen_orient spec) = true
  /\ ((takesExifPath spec sourceFile = true
       /\ exists original,
            readAsDataURL W sourceFile = Some original
            /\ restore W original (renderedDataUri W spec sourceFile) = None)
      \/ (takesExifPath spec sourceFile = true
          /\ exists original merged,
               readAsDataURL W sourceFile = Some original
               /\ restore W original (renderedDataUri W spec sourceFile) = Some merged
               /\ _dataUriToBlob merged = None)
      \/ _dataUriToBlob (renderedDataUri W spec sourceFile) = None).
Proof.
  unfold _generateScaledImage. fold (takesExifPath spec sourceFile).
  fold (renderedDataUri W spec sourceFile).
  destruct (generate W sourceFile (gen_maxSize spec) (gen_orient spec));
    [|discriminate].
  intros H. split; [reflexivity|].
  unfold _insertExifHeader, signalSuccess in H.
  destruct (takesExifPath spec sourceFile).
  - destruct (readAsDataURL W sourceFile) as [original|].
    + destruct (restore W original _) as [merged|] eqn:Hr.
      * cbn [bind ret log fst] in H.
        destruct (_dataUriToBlob merged) eqn:Hm; [discriminate|].
        right. left. split; [reflexivity|]. now exists original, merged.
      * left. split; [reflexivity|]. now exists original.
    + cbn [bind ret log fst] in H.
      destruct (_dataUriToBlob (renderedDataUri W spec sourceFile)) eqn:Hb;
        [discriminate|]. now right; right.
  - cbn [bind ret log fst] in H.
    destruct (_dataUriToBlob (renderedDataUri W spec sourceFile)) eqn:Hb;
      [discriminate|]. now right; right.
Qed.

Lemma generateScaledImage_pending_only_after_exception_witness :
  generate restoreThrows (photo []) (gen_maxSize exifGen) (gen_orient exifGen) = true
  /\ ((takesExifPath exifGen (photo []) = true
       /\ exists original,
            readAsDataURL restoreThrows (photo []) = Some original
            /\ restore restoreThrows original
                 (renderedDataUri restoreThrows exifGen (photo [])) = None)
      \/ (takesExifPath exifGen (photo []) = true
          /\ exists original merged,
               readAsDataURL restoreThrows (photo []) = Some original
               /\ restore restoreThrows original
                    (renderedDataUri restoreThrows exifGen (photo [])) = Some merged
               /\ _dataUriToBlob merged = None)
      \/ _dataUriToBlob (renderedDataUri restoreThrows exifGen (photo [])) = None).
Proof.
  apply (generateScaledImage_pending_only_after_exception restoreThrows exifGen (photo [])).
  reflexivity.
Defined.

(** ** Further properties: records and their producers *)

Lemma scaledRecords_In (P : Platform) (self : Scaler)
    (originalFileName : string) (originalBlob : Blob)
    (l : list SizeRecord) (ids : nat) (r : FileRecord) :
  In r (scaledRecords P self originalFileName originalBlob ids l) ->
  exists s i, In s l /\ r = scaledRecord P self originalFileName originalBlob i s.
Proof.
  revert ids. induction l as [|s l IH]; intros ids; simpl; [contradiction|].
  intros [<- | H].
  - exists s, ids. split; [now left | reflexivity].
  - destruct (IH _ H) as (s' & i & Hs' & ->). exists s', i. split; [now right | reflexivity].
Qed.

(** X8: Every record of [getFileRecords] is either the record of the original,
    with the identifier, the name and the blob that were passed in, or it
    stems from one configured size: it is named after that size's label,
    and its producer wraps the reference blob and is bound to that size's
    [maxSize], to the type negotiated for it and to the scaler's
    orientation flag, failure text and EXIF flag. *)
Theorem getFileRecords_record_origin
    (P : Platform) (spec : ScalerSpec) (ids : nat)
    (originalFileUuid originalFileName : string) (src : BlobOrBlobData)
    (r : FileRecord) :
  In r (fst (getFileRecords P (new_Scaler P spec) ids
               originalFileUuid originalFileName src)) ->
  (uuid r = originalFileUuid /\ record_name r = originalFileName
   /\ blob r = Original (originalBlobOf src))
  \/ exists s gen,
       In s (sizes spec)
       /\ record_name r
          = _getName originalFileName (name s) (gen_type gen)
                     (Some (blob_type (originalBlobOf src)))
       /\ blob r = BlobProxy (originalBlobOf src) gen
       /\ gen_maxSize gen = maxSize s
       /\ gen_type gen
          = _determineOutputType P (type s) (defaultType spec)
                                 (Some (blob_type (originalBlobOf src)))
       /\ gen_orient gen = orient spec
       /\ gen_failedText gen = failureText spec
       /\ gen_includeExif gen = includeExif spec.
Proof.
  rewrite (getFileRecords_unfold P _ originalFileName (originalBlobOf src) ids
             originalFileUuid src eq_refl).
  intros Hin. apply in_app_or in Hin. destruct Hin as [Hin | Hin].
  - right. destruct (isPreviewableSync P (originalBlobOf src)); [|contradiction].
    apply scaledRecords_In in Hin. destruct Hin as (s & i & Hs & ->).
    exists s,
      {| gen_maxSize := maxSize s;
         gen_orient := orient spec;
         gen_type := _determineOutputType P (type s) (defaultType spec)
                       (Some (blob_type (originalBlobOf src)));
         gen_quality := (inject_Z (defaultQuality spec) / inject_Z 100)%Q;
         gen_failedText := failureText spec;
         gen_includeExif := includeExif spec |}.
    split.
    + apply (Permutation_in _ (getSortedSizes_perm (sizes spec))). exact Hs.
    + repeat split.
  - left. destruct (includeReference (new_Scaler P spec)); [|contradiction].
    destruct Hin as [<- | []]. repeat split.
Qed.

Lemma getFileRecords_record_origin_witness :
  exists s gen,
    In s (sizes (scenarioSpec true true 80 "Failed to scale"))
    /\ record_name
         (scaledRecord noTiffPlatform
            (new_Scaler noTiffPlatform (scenarioSpec true true 80 "Failed to scale"))
            "photo.jpg" (photo []) 1
            {| maxSize := 400; name := "large"; type := None |})
       = _getName "photo.jpg" (name s) (gen_type gen) (Some "image/jpeg")
    /\ blob
         (scaledRecord noTiffPlatform
            (new_Scaler noTiffPlatform (scenarioSpec true true 80 "Failed to scale"))
            "photo.jpg" (photo []) 1
            {| maxSize := 400; name := "large"; type := None |})
       = BlobProxy (photo []) gen
    /\ gen_maxSize gen = maxSize s
    /\ gen_type gen
       = _determineOutputType noTiffPlatform (type s) None (Some "image/jpeg")
    /\ gen_orient gen = true
    /\ gen_failedText gen = "Failed to scale"
    /\ gen_includeExif gen = true.
Proof.
  destruct (getFileRecords_record_origin noTiffPlatform
              (scenarioSpec true true 80 "Failed to scale") 0 "ref-uuid" "photo.jpg"
              (IsBlob (photo []))
              (scaledRecord noTiffPlatform
                 (new_Scaler noTiffPlatform (scenarioSpec true true 80 "Failed to scale"))
                 "photo.jpg" (photo []) 1
                 {| maxSize := 400; name := "large"; type := None |}))
    as [(_ & _ & Hblob) | Hvariant].
  - right. left. reflexivity.
  - discriminate Hblob.
  - exact Hvariant.
Defined.

Lemma dataUriToBlob_base64DataUri (mime : string) (bytes : list N) :
  Forall (fun b => (b < 256)%N) bytes ->
  lacks "," mime = true -> lacks ":" mime = true -> lacks ";" mime = true ->
  _dataUriToBlob (base64DataUri mime bytes) = Some (_createBlob bytes mime).
Proof.
  intros Hb Hcomma Hcolon Hsemi.
  replace (base64DataUri mime bytes)
    with ("data:" ++ (mime ++ ";base64") ++ "," ++ string_of_list_ascii (btoa bytes))
    by (unfold base64DataUri; now rewrite !append_assoc).
  rewrite dataUriToBlob_parts.
  - replace (JS.includes "base64" (mime ++ ";base64")) with true
      by (symmetry; now apply includes_suffix).
    rewrite (atob_btoa bytes Hb). cbn [option_map]. now rewrite toUint8Array_bytes.
  - now rewrite lacks_app, Hcomma.
  - now rewrite lacks_app, Hcolon.
  - now apply beforeFirst_app.
  - now apply lacks_btoa.
Qed.

(** X30: From the record to the blob: when EXIF preservation is off, rendering
    succeeds and the canvas hands out the base64 Data-URI of some bytes
    under some MIME type, the producer of a size-derived record resolves
    with a blob of exactly those bytes, tagged with that type as a blob
    stores it (in lower case). *)
Theorem variant_resolves_with_canvas_bytes
    (P : Platform) (spec : ScalerSpec) (ids : nat)
    (originalFileUuid originalFileName : string) (src : BlobOrBlobData)
    (W : Collaborators) (r : FileRecord) (referenceBlob : Blob) (gen : GenSpec)
    (mime : string) (bytes : list N) :
  In r (fst (getFileRecords P (new_Scaler P spec) ids
               originalFileUuid originalFileName src)) ->
  blob r = BlobProxy referenceBlob gen ->
  includeExif spec = false ->
  generate W referenceBlob (gen_maxSize gen) (gen_orient gen) = true ->
  renderedDataUri W gen referenceBlob = base64DataUri mime bytes ->
  Forall (fun b => (b < 256)%N) bytes ->
  lacks "," mime = true -> lacks ":" mime = true -> lacks ";" mime = true ->
  create W (blob r)
  = (Success (taggedBlob bytes (JS.blobType mime)),
     [attemptEntry referenceBlob; successEntry referenceBlob]).
Proof.
  intros Hin Hblob Hexif Hgen Huri Hb Hcomma Hcolon Hsemi.
  change (taggedBlob bytes (JS.blobType mime)) with (_createBlob bytes mime).
  rewrite (getFileRecords_unfold P _ originalFileName (originalBlobOf src) ids
             originalFileUuid src eq_refl) in Hin.
  apply in_app_or in Hin. destruct Hin as [Hin | Hin].
  - destruct (isPreviewableSync P (originalBlobOf src)); [|contradiction].
    apply scaledRecords_In in Hin. destruct Hin as (s & i & _ & ->).
    assert (Hinc : gen_includeExif gen = false).
    { cbn [scaledRecord blob] in Hblob. injection Hblob as _ <-. exact Hexif. }
    rewrite Hblob. cbn [create].
    apply generateScaledImage_without_exif.
    + exact Hgen.
    + unfold takesExifPath. now rewrite Hinc.
    + rewrite Huri. now apply dataUriToBlob_base64DataUri.
  - destruct (includeReference (new_Scaler P spec)); [|contradiction].
    destruct Hin as [<- | []]. discriminate.
Qed.

Lemma variant_resolves_with_canvas_bytes_witness :
  create restoreThrows
    (blob (scaledRecord noTiffPlatform
             (new_Scaler noTiffPlatform (scenarioSpec true false 80 "Failed to scale"))
             "photo.jpg" (photo []) 0
             {| maxSize := 100; name := "small"; type := None |}))
  = (Success (taggedBlob [255; 216; 255]%N "image/jpeg"),
     [attemptEntry (photo []); successEntry (photo [])]).
Proof.
  eapply (variant_resolves_with_canvas_bytes noTiffPlatform
            (scenarioSpec true false 80 "Failed to scale") 0 "ref-uuid" "photo.jpg"
            (IsBlob (photo [])) restoreThrows _ _ _ "image/jpeg" [255; 216; 255]%N).
  - left. reflexivity.
  - reflexivity.
  - reflexivity.
  - reflexivity.
  - reflexivity.
  - repeat constructor.
  - reflexivity.
  - reflexivity.
  - reflexivity.
Defined.

Lemma scaledRecords_name (P : Platform) (self : Scaler)
    (originalFileName : string) (originalBlob : Blob)
    (l : list SizeRecord) (ids : nat) :
  map record_name (scaledRecords P self originalFileName originalBlob ids l)
  = map (fun s => _getName originalFileName (name s)
                    (_determineOutputType P (type s) (sc_defaultType self)
                       (Some (blob_type originalBlob)))
                    (Some (blob_type originalBlob))) l.
Proof.
  revert ids. induction l as [|s r IH]; intros ids; simpl; [reflexivity|].
  now rewrite IH.
Qed.

Lemma getName_label_injective (X label1 label2 : string) (ty refType : option string) :
  _getName X label1 ty refType = _getName X label2 ty refType -> label1 = label2.
Proof.
  destruct (getName_shape X ty refType) as (front & back & Hshape & _).
  rewrite !Hshape. intros H.
  apply append_cancel_l in H. apply (append_cancel_l " (") in H.
  now apply append_cancel_r in H.
Qed.

Lemma getName_not_original (X label : string) (ty refType : option string) :
  _getName X label ty refType <> X.
Proof.
  destruct (getName_shape X ty refType) as (front & back & Hshape & [HX | (e & HX)]);
    rewrite Hshape; intros H.
  - assert (H' : front ++ " (" ++ label ++ back = front ++ "")
      by (now rewrite append_empty_r, H).
    apply append_cancel_l in H'. discriminate.
  - rewrite HX in H. apply append_cancel_l in H. discriminate.
Qed.

(** X9: Names do not collide: when all sizes request the same type (or none)
    and carry different labels, the records of a call, the original's
    included, all have different names. *)
Theorem getFileRecords_distinct_names
    (P : Platform) (spec : ScalerSpec) (ids : nat)
    (originalFileUuid originalFileName : string) (src : BlobOrBlobData)
    (requested : option string) :
  Forall (fun s => type s = requested) (sizes spec) ->
  NoDup (map name (sizes spec)) ->
  NoDup (map record_name (fst (getFileRecords P (new_Scaler P spec) ids
                                 originalFileUuid originalFileName src))).
Proof.
  intros Htype Hlabels.
  rewrite (getFileRecords_unfold P _ originalFileName (originalBlobOf src) ids
             originalFileUuid src eq_refl).
  rewrite map_app. cbn [new_Scaler sc_sizes includeReference].
  set (ref := Some (blob_type (originalBlobOf src))).
  set (out := _determineOutputType P requested (defaultType spec) ref).
  assert (Hnames :
    map record_name
      (scaledRecords P (new_Scaler P spec) originalFileName (originalBlobOf src) ids
         (_getSortedSizes (sizes spec)))
    = map (fun label => _getName originalFileName label out ref)
          (map name (_getSortedSizes (sizes spec)))).
  { rewrite scaledRecords_name, map_map. apply map_ext_Forall.
    apply (Permutation_Forall (Permutation_sym (getSortedSizes_perm (sizes spec)))).
    eapply Forall_impl; [|exact Htype].
    intros s Hs. cbv beta. cbn [new_Scaler sc_defaultType]. now rewrite Hs. }
  apply NoDup_app.
  - destruct (isPreviewableSync P (originalBlobOf src)); [|constructor].
    rewrite Hnames. apply NoDup_map_injective.
    + intros l1 l2. apply getName_label_injective.
    + apply (Permutation_NoDup
               (Permutation_map name (Permutation_sym (getSortedSizes_perm (sizes spec))))).
      exact Hlabels.
  - destruct (sendOriginal spec); repeat constructor. intros [].
  - intros a Ha Hb.
    destruct (isPreviewableSync P (originalBlobOf src)); [|contradiction].
    rewrite Hnames in Ha. apply in_map_iff in Ha. destruct Ha as (label & <- & _).
    destruct (sendOriginal spec); [|contradiction].
    destruct Hb as [Hb | []]. cbn [referenceRecord record_name] in Hb.
    symmetry in Hb. now apply getName_not_original in Hb.
Qed.

Lemma getFileRecords_distinct_names_witness :
  NoDup (map record_name
           (fst (getFileRecords noTiffPlatform
                   (new_Scaler noTiffPlatform
                      (scenarioSpec true false 80 "Failed to scale"))
                   0 "ref-uuid" "photo.jpg" (IsBlob (photo []))))).
Proof.
  apply (getFileRecords_distinct_names noTiffPlatform
           (scenarioSpec true false 80 "Failed to scale") 0 "ref-uuid" "photo.jpg"
           (IsBlob (photo [])) None).
  - repeat constructor.
  - repeat constructor; simpl; intuition discriminate.
Defined.

(** X2: The order in which the sizes are configured does not matter for the
    order of upload: two configurations with the same size records yield
    the same sequence of [maxSize] values. *)
Theorem getSortedSizes_order_independent (sizes1 sizes2 : list SizeRecord) :
  Permutation sizes1 sizes2 ->
  map maxSize (_getSortedSizes sizes1) = map maxSize (_getSortedSizes sizes2).
Proof.
  intros Hperm. apply sorted_perm_unique; try apply getSortedSizes_sorted.
  apply Permutation_map.
  apply perm_trans with sizes1; [apply getSortedSizes_perm|].
  apply perm_trans with sizes2; [exact Hperm|].
  apply Permutation_sym, getSortedSizes_perm.
Qed.

Lemma getSortedSizes_order_independent_witness :
  map maxSize (_getSortedSizes [ {| maxSize := 400; name := "large"; type := None |};
                                 {| maxSize := 100; name := "small"; type := None |} ])
  = map maxSize (_getSortedSizes [ {| maxSize := 100; name := "small"; type := None |};
                                   {| maxSize := 400; name := "large"; type := None |} ]).
Proof.
  apply (getSortedSizes_order_independent
           [ {| maxSize := 400; name := "large"; type := None |};
             {| maxSize := 100; name := "small"; type := None |} ]
           [ {| maxSize := 100; name := "small"; type := None |};
             {| maxSize := 400; name := "large"; type := None |} ]).
  apply perm_swap.
Defined.

(** X29: Nothing is logged at error level on a clean run: an entry with level
    "error" means that rendering failed or that, on the EXIF path, the
    read of the original failed. *)
Theorem generateScaledImage_error_entries
    (W : Collaborators) (spec : GenSpec) (sourceFile : Blob) (entry : LogEntry) :
  In entry (snd (_generateScaledImage W spec sourceFile)) ->
  snd entry = Some "error" ->
  generate W sourceFile (gen_maxSize spec) (gen_orient spec) = false
  \/ (takesExifPath spec sourceFile = true /\ readAsDataURL W sourceFile = None).
Proof.
  unfold _generateScaledImage. fold (takesExifPath spec sourceFile).
  destruct (generate W sourceFile (gen_maxSize spec) (gen_orient spec)); [|now left].
  unfold _insertExifHeader, signalSuccess.
  destruct (takesExifPath spec sourceFile).
  - destruct (readAsDataURL W sourceFile) as [original|]; [|now right].
    destruct (restore W original _) as [merged|]; cbn [bind ret log snd app].
    + destruct (_dataUriToBlob merged); cbn [snd app];
        intros [<- | [<- | []]]; discriminate.
    + intros [<- | []]; discriminate.
  - cbn [bind ret log snd app].
    destruct (_dataUriToBlob _); cbn [snd app];
      intros [<- | [<- | []]]; discriminate.
Qed.

Lemma generateScaledImage_error_entries_witness :
  generate renderFails (photo []) (gen_maxSize exifGen) (gen_orient exifGen) = false
  \/ (takesExifPath exifGen (photo []) = true /\ readAsDataURL renderFails (photo []) = None).
Proof.
  apply (generateScaledImage_error_entries renderFails exifGen (photo [])
           (renderFailedEntry (photo []))).
  - right. left. reflexivity.
  - reflexivity.
Defined.
